(** * kwant/system.py: low-level interface of systems

    A shallow embedding of the parts of [kwant/system.py] that carry the
    specification's testable properties: sites and site arrays, the
    [Symmetry] interface with its derived [to_fd]/[in_fd], [NoSymmetry],
    the vectorized [site_ranges], the finite-system [precalculate], the
    infinite-system [modes], [cell_hamiltonian] and [inter_cell_hopping],
    [_normalize_matrix_blocks] and [PrecalculatedLead].

    Python values that raise are modelled with [result]; Python objects
    whose identity matters live in an explicit store. *)

From Stdlib Require Import ZArith Lia Bool DecimalString.
From Stdlib Require OrderedTypeEx.
From stdpp Require Import gmap strings list fin_maps.

Local Open Scope string_scope.
Set Warnings "-register-all".

(** ** Exceptions and fallible results *)

Inductive exn : Type :=
| ValueError (msg : string)
| TypeError (msg : string)
| AttributeError (msg : string)
| AssertionError (msg : string)
| AxisError (msg : string).

Inductive result (A : Type) : Type :=
| Ok (a : A)
| Raise (e : exn).
Arguments Ok {A} a.
Arguments Raise {A} e.

Definition rbind {A B} (r : result A) (k : A -> result B) : result B :=
  match r with
  | Ok a => k a
  | Raise e => Raise e
  end.

Declare Scope result_scope.
Delimit Scope result_scope with res.
Notation "x <- r ;; k" := (rbind r (fun x => k))
  (at level 100, r at next level, right associativity) : result_scope.

Definition is_ok {A} (r : result A) : bool :=
  match r with Ok _ => true | Raise _ => false end.

Definition is_TypeError (e : exn) : bool :=
  match e with TypeError _ => true | _ => false end.

(** [needle in haystack] on Python strings. *)
Fixpoint contains (needle hay : string) : bool :=
  if String.prefix needle hay then true
  else match hay with
       | EmptyString => false
       | String _ rest => contains needle rest
       end.

(** ** Sites and site families *)

(** [SiteFamily.__init__] stores [canonical_repr], [name] and [norbs]
    ([None] when the number of orbitals is not specified). *)
Record SiteFamily : Type := mkSiteFamily {
  canonical_repr : string;
  name : string;
  norbs : option Z
}.

(** The guard on [norbs] in [SiteFamily.__init__]. *)
Definition SiteFamily_init (canonical_repr name : string) (norbs : option Z)
  : result SiteFamily :=
  match norbs with
  | None => Ok (mkSiteFamily canonical_repr name None)
  | Some n =>
      if (n <=? 0)%Z
      then Raise (ValueError "The norbs parameter must be an integer > 0.")
      else Ok (mkSiteFamily canonical_repr name (Some n))
  end.

(** A tag is "typically a vector of integers". *)
Definition Tag : Type := list Z.

(** [Site] is the tuple [(family, tag)]. *)
Record Site : Type := mkSite {
  site_family : SiteFamily;
  tag : Tag
}.

(** [SiteArray] holds one family and a sequence of normalized tags. *)
Record SiteArray : Type := mkSiteArray {
  family : SiteFamily;
  tags : list Tag
}.

(** [SiteArray.__len__] *)
Definition SiteArray_len (a : SiteArray) : nat := length (tags a).

(** [SiteArray.__getitem__] with an integer key. *)
Definition SiteArray_getitem (a : SiteArray) (key : nat) : option Site :=
  mkSite (family a) <$> tags a !! key.

(** ** Symmetries *)

(** What the methods of a symmetry receive: a [Site], a [SiteArray], or
    some other Python object. *)
Inductive sites : Type :=
| ASite (s : Site)
| ASiteArray (a : SiteArray)
| AOther.

(** Group elements: a single tuple for a [Site], a sequence of tuples
    (a 2-d integer array, one row per site) for a [SiteArray]. *)
Inductive element : Type :=
| Elem (e : list Z)
| Elems (rows : list (list Z)).

(** Unary minus on group elements, coordinate by coordinate. *)
Definition neg_element (g : element) : element :=
  match g with
  | Elem e => Elem (map Z.opp e)
  | Elems rows => Elems (map (map Z.opp) rows)
  end.

(** What [act] and [to_fd] return: the image of [a], or of the hopping
    [(a, b)]. *)
Inductive image : Type :=
| ImSite (a : sites)
| ImHopping (a b : sites).

(** The abstract methods of [Symmetry] that the derived methods use.
    [subgroup] and [has_subgroup] have no body in the base class. *)
Class Symmetry : Type := {
  num_directions : nat;
  which : sites -> result element;
  act : element -> sites -> option sites -> result image
}.

(** [Symmetry.to_fd]: [self.act(-self.which(a), a, b)]. *)
Definition to_fd `{Symmetry} (a : sites) (b : option sites) : result image :=
  (g <- which a ;;
   act (neg_element g) a b)%res.

(** What [in_fd] returns: a single bool for a [Site], a sequence of bool
    for a [SiteArray]. *)
Inductive fd_answer : Type :=
| FdBool (b : bool)
| FdBools (bs : list bool).

(** The loop of the [Site] branch: return [False] at the first
    coordinate with [d != 0], [True] when the loop ends. *)
Fixpoint in_fd_loop (ds : list Z) : bool :=
  match ds with
  | [] => true
  | d :: rest => if negb (d =? 0)%Z then false else in_fd_loop rest
  end.

(** [np.logical_and.reduce(row)] over one row of booleans. *)
Definition logical_and_reduce (row : list bool) : bool :=
  fold_left andb row true.

(** [which != 0], elementwise on a 2-d array. *)
Definition ne_zero (rows : list (list Z)) : list (list bool) :=
  map (map (fun d => negb (d =? 0)%Z)) rows.

(** [Symmetry.in_fd] *)
Definition in_fd `{Symmetry} (site : sites) : result fd_answer :=
  match site with
  | ASite _ =>
      (g <- which site ;;
       match g with
       | Elem ds => Ok (FdBool (in_fd_loop ds))
       | Elems _ =>
           Raise (ValueError "The truth value of an array is ambiguous")
       end)%res
  | ASiteArray _ =>
      (g <- which site ;;
       match g with
       | Elems rows => Ok (FdBools (map logical_and_reduce (ne_zero rows)))
       | Elem _ => Raise (AxisError "axis 1 is out of bounds")
       end)%res
  | AOther => Raise (TypeError "'site' must be a Site or SiteArray")
  end.

(** *** NoSymmetry *)

(** Truthiness of a group element handed to [NoSymmetry.act]. *)
Definition element_truthy (g : element) : bool :=
  match g with
  | Elem [] | Elems [] => false
  | _ => true
  end.

(** [NoSymmetry.which]: always [_empty_array]. *)
Definition NoSymmetry_which (site : sites) : result element := Ok (Elem []).

(** [NoSymmetry.act] *)
Definition NoSymmetry_act (g : element) (a : sites) (b : option sites)
  : result image :=
  if element_truthy g
  then Raise (ValueError "`element` must be empty for NoSymmetry.")
  else Ok (match b with None => ImSite a | Some b' => ImHopping a b' end).

(** [NoSymmetry.to_fd] overrides the derived method. *)
Definition NoSymmetry_to_fd (a : sites) (b : option sites) : image :=
  match b with None => ImSite a | Some b' => ImHopping a b' end.

(** [NoSymmetry.in_fd] overrides the derived method. *)
Definition NoSymmetry_in_fd (site : sites) : bool := true.

Definition NoSymmetry : Symmetry := {|
  num_directions := 0;
  which := NoSymmetry_which;
  act := NoSymmetry_act
|}.

(** Calling the class [NoSymmetry] with positional arguments.  Neither
    [NoSymmetry] nor [Symmetry] defines [__init__] or [__new__], so the
    call reaches [object]'s, which accept no argument beyond the class. *)
Definition NoSymmetry_call {obj : Type} (args : list obj) : result Symmetry :=
  match args with
  | [] => Ok NoSymmetry
  | _ :: _ => Raise (TypeError "NoSymmetry() takes no arguments")
  end.

(** Python's [any]. *)
Definition any {obj : Type} (truth : obj -> bool) (xs : list obj) : bool :=
  existsb truth xs.

(** [NoSymmetry.subgroup], called with the star-arguments [generators]:
    the tuple [generators] is passed as the one positional argument of
    the call to the class [NoSymmetry]. *)
Definition NoSymmetry_subgroup {obj : Type} (truth : obj -> bool)
    (generators : list obj) : result Symmetry :=
  if any truth generators
  then Raise (ValueError "Generators must be empty for NoSymmetry.")
  else NoSymmetry_call [generators].

(** [NoSymmetry.has_subgroup]: [isinstance(other, NoSymmetry)]. *)
Definition NoSymmetry_has_subgroup (other_is_NoSymmetry : bool) : bool :=
  other_is_NoSymmetry.

(** *** A one-dimensional translational symmetry

    A concrete subclass of [Symmetry] used to exercise the derived
    methods: sites carry one integer coordinate, the group is generated
    by the translation by [period] > 0, and the fundamental domain is
    [0 <= x < period]. *)

Definition chain_domain (period : Z) (t : Tag) : list Z :=
  match t with
  | x :: _ => [(x / period)%Z]
  | [] => [0%Z]
  end.

Definition chain_shift (period : Z) (e : list Z) (t : Tag) : Tag :=
  match e, t with
  | d :: _, x :: rest => (x + d * period)%Z :: rest
  | _, _ => t
  end.

Definition chain_which (period : Z) (s : sites) : result element :=
  match s with
  | ASite s => Ok (Elem (chain_domain period (tag s)))
  | ASiteArray a => Ok (Elems (map (chain_domain period) (tags a)))
  | AOther => Raise (TypeError "not a site")
  end.

Definition chain_act_on (period : Z) (g : element) (s : sites)
  : result sites :=
  match g, s with
  | Elem e, ASite s =>
      Ok (ASite (mkSite (site_family s) (chain_shift period e (tag s))))
  | Elem e, ASiteArray a =>
      Ok (ASiteArray
            (mkSiteArray (family a) (map (chain_shift period e) (tags a))))
  | Elems rows, ASiteArray a =>
      if Nat.eqb (length rows) (length (tags a))
      then Ok (ASiteArray
                 (mkSiteArray (family a)
                    (zip_with (chain_shift period) rows (tags a))))
      else Raise (ValueError "one group element per site is required")
  | _, _ => Raise (TypeError "not a site")
  end.

Definition chain_act (period : Z) (g : element) (a : sites)
    (b : option sites) : result image :=
  (a' <- chain_act_on period g a ;;
   match b with
   | None => Ok (ImSite a')
   | Some b => b' <- chain_act_on period g b ;; Ok (ImHopping a' b')
   end)%res.

Definition Chain (period : Z) : Symmetry := {|
  num_directions := 1;
  which := chain_which period;
  act := chain_act period
|}.

Definition chain_family : SiteFamily := mkSiteFamily "chain" "" (Some 1%Z).

Definition chain_sites : SiteArray :=
  mkSiteArray chain_family [[0%Z]; [1%Z]; [2%Z]; [5%Z]].

(** ** Arrays

    A numpy array is its shape together with its entries in C order.
    The entry type [C] stands for numpy's complex numbers; nothing below
    depends on their arithmetic except where it is passed in. *)

Record ndarray (C : Type) : Type := mkArray {
  shape : list nat;
  flat : list C
}.
Arguments mkArray {C} shape flat.
Arguments shape {C} _.
Arguments flat {C} _.

(** Array-likes: a number, or a (possibly nested) sequence. *)
Inductive arraylike (C : Type) : Type :=
| Scalar (c : C)
| Seq (items : list (arraylike C)).
Arguments Scalar {C} c.
Arguments Seq {C} items.

(** Python's [repr] of a tuple of non-negative integers. *)
Definition repr_nat (n : nat) : string :=
  NilEmpty.string_of_uint (Nat.to_uint n).

Definition repr_shape (s : list nat) : string :=
  match s with
  | [] => "()"
  | [x] => "(" ++ repr_nat x ++ ",)"
  | _ => "(" ++ String.concat ", " (map repr_nat s) ++ ")"
  end.

(** The optional [calling_function] argument: [callable(...)] holds for
    a function, which has a [__name__]. *)
Inductive pyfunc : Type :=
| NotCallable
| Callable (__name__ : string).

Section Blocks.
Context {C : Type}.

(** [np.asarray(blocks, dtype=complex)]: a sequence becomes an array
    when all its items have one shape; a ragged sequence is refused
    (the source expects a [TypeError] there). *)
Fixpoint asarray (b : arraylike C) : result (ndarray C) :=
  match b with
  | Scalar c => Ok (mkArray [] [c])
  | Seq items =>
      let fix go (l : list (arraylike C)) : result (list (ndarray C)) :=
        match l with
        | [] => Ok []
        | x :: rest =>
            (a <- asarray x ;; as' <- go rest ;; Ok (a :: as'))%res
        end in
      (subs <- go items ;;
       match subs with
       | [] => Ok (mkArray [0] [])
       | a :: _ =>
           if forallb (fun x => bool_decide (shape x = shape a)) subs
           then Ok (mkArray (length subs :: shape a)
                            (concat (map flat subs)))
           else Raise (TypeError "inhomogeneous array-like")
       end)%res
  end.

(** [np.tile(a, (n, 1, 1))] for an array of at most three dimensions:
    the shape is padded with leading ones to three dimensions and the
    array is repeated [n] times along the first. *)
Definition tile_n11 (a : ndarray C) (n : nat) : ndarray C :=
  match (replicate (3 - length (shape a)) 1 ++ shape a)%list with
  | d0 :: rest => mkArray (n * d0 :: rest) (concat (replicate n (flat a)))
  | [] => a
  end.

(** [a.reshape(-1, 1, 1)] *)
Definition reshape_m11 (a : ndarray C) : ndarray C :=
  mkArray [length (flat a); 1; 1] (flat a).

Definition tuple3 (t : nat * nat * nat) : list nat :=
  let '(n, p, q) := t in [n; p; q].

(** [_normalize_matrix_blocks] *)
Definition _normalize_matrix_blocks (blocks : arraylike C)
    (expected_shape : nat * nat * nat) (calling_function : pyfunc)
  : result (ndarray C) :=
  match asarray blocks with
  | Raise (TypeError _) =>
      Raise (ValueError "Matrix elements declared with incompatible shapes.")
  | Raise e => Raise e
  | Ok blocks =>
      let original_shape := shape blocks in
      let '(blocks, was_broadcast) :=
        match length (shape blocks) with
        | 0 => (tile_n11 blocks (fst (fst expected_shape)), true)
        | 1 => (reshape_m11 blocks, true)
        | 2 => (tile_n11 blocks (fst (fst expected_shape)), true)
        | _ => (blocks, false)
        end in
      if bool_decide (shape blocks ≠ tuple3 expected_shape)
      then
        let msg :=
          [ "Expected values of shape " ++ repr_shape (tuple3 expected_shape)
            ++ ", but received values of shape " ++ repr_shape (shape blocks);
            if was_broadcast
            then "(broadcasted from shape " ++ repr_shape original_shape ++ ")"
            else "";
            match calling_function with
            | Callable nm => "when evaluating " ++ nm
            | NotCallable => ""
            end ] in
        Raise (ValueError (String.concat " " msg))
      else Ok blocks
  end.
End Blocks.

(** ** Vectorized systems *)

(** The [Term] named tuple. *)
Record Term : Type := mkTerm {
  subgraph : nat;
  symmetry_element : list Z;
  hermitian : bool;
  term_parameters : list string
}.

Record VectorizedSystem : Type := mkVectorizedSystem {
  site_arrays : list SiteArray;
  subgraphs : list ((nat * nat) * (list nat * list nat));
  terms : list Term
}.

(** [np.cumsum] on integers. *)
Fixpoint cumsum_from (acc : Z) (l : list Z) : list Z :=
  match l with
  | [] => []
  | x :: rest => (acc + x)%Z :: cumsum_from (acc + x)%Z rest
  end.

Definition cumsum (l : list Z) : list Z := cumsum_from 0%Z l.

(** [len(arr) * arr.family.norbs]; multiplying by [None] is a
    [TypeError]. *)
Definition array_orbitals (arr : SiteArray) : result Z :=
  match norbs (family arr) with
  | Some n => Ok (Z.of_nat (SiteArray_len arr) * n)%Z
  | None =>
      Raise (TypeError
               "unsupported operand type(s) for *: 'int' and 'NoneType'")
  end.

(** A list comprehension whose body may raise. *)
Fixpoint comprehension {A B} (f : A -> result B) (l : list A)
  : result (list B) :=
  match l with
  | [] => Ok []
  | x :: rest =>
      (y <- f x ;; ys <- comprehension f rest ;; Ok (y :: ys))%res
  end.

(** [np.array(rows).transpose()] for rows of one length. *)
Fixpoint transpose (rows : list (list Z)) : list (list Z) :=
  match rows with
  | [] => []
  | [r] => map (fun x => [x]) r
  | r :: rest => zip_with cons r (transpose rest)
  end.

(** [VectorizedSystem.site_ranges]; the [lru_cache] only avoids
    recomputing the same value.  The integers are numpy's platform
    integers, taken here as unbounded. *)
Definition site_ranges (self : VectorizedSystem) : result (list (list Z)) :=
  let site_offsets :=
    cumsum (0%Z :: map (fun arr => Z.of_nat (SiteArray_len arr))
                       (site_arrays self)) in
  let norbs_col := (map (fun arr => norbs (family arr)) (site_arrays self)
                    ++ [Some 0%Z])%list in
  (orbs <- comprehension array_orbitals (site_arrays self) ;;
   let orb_offsets := cumsum (0%Z :: orbs) in
   Ok (transpose [site_offsets; map (default 0%Z) norbs_col; orb_offsets]))%res.

(** The quantities the rows of [site_ranges] are meant to hold. *)
Definition total_sites (arrs : list SiteArray) : Z :=
  foldr Z.add 0%Z (map (fun arr => Z.of_nat (SiteArray_len arr)) arrs).

Definition total_orbitals (arrs : list SiteArray) : Z :=
  foldr Z.add 0%Z
    (map (fun arr => (Z.of_nat (SiteArray_len arr)
                      * default 0 (norbs (family arr)))%Z) arrs).

(** ** Logs

    Code that emits something (a warning, a call to a collaborator)
    before it returns or raises: what was emitted so far, with the
    outcome. *)

Definition logged (L A : Type) : Type := list L * result A.

Definition wret {L A} (a : A) : logged L A := ([], Ok a).

Definition wlift {L A} (r : result A) : logged L A := ([], r).

Definition emit {L} (x : L) : logged L unit := ([x], Ok tt).

Definition wbind {L A B} (m : logged L A) (k : A -> logged L B)
  : logged L B :=
  match m with
  | (ws, Ok a) => let '(ws', r) := k a in ((ws ++ ws')%list, r)
  | (ws, Raise e) => (ws, Raise e)
  end.

Declare Scope logged_scope.
Delimit Scope logged_scope with logged.
Notation "x <- m ;; k" := (wbind m (fun x => k))
  (at level 100, m at next level, right associativity) : logged_scope.
Notation "m ;;; k" := (wbind m (fun _ => k))
  (at level 100, right associativity) : logged_scope.

(** [warnings.warn(msg)] *)
Abbreviation warned := (logged string).

Definition warn (msg : string) : warned unit := emit msg.

(** Modelled from the spec: the decorator [deprecate_args] comes from
    [kwant._common], which is not among the sources.  The specification
    only says that positional [args] are deprecated and still accepted,
    so the decorated function is called with the arguments as given. *)
Definition deprecate_args {F : Type} (f : F) : F := f.

(** ** Systems *)

(** What the code uses of [kwant.graph.CGraph]. *)
Record CGraph : Type := mkGraph {
  num_nodes : nat;
  edges : list (nat * nat)
}.

Definition has_edge (g : CGraph) (i j : nat) : bool :=
  bool_decide ((i, j) ∈ edges g).

(** Number of orbitals of site [i] according to [site_ranges], a sorted
    sequence of triples [(first_site, norbs, orb_offset)]: that of the
    last range starting at or before [i]. *)
Definition site_norbs (ranges : list (nat * nat * nat)) (i : nat) : nat :=
  foldl (fun acc '(first_site, n, _) =>
           if (first_site <=? i)%nat then n else acc)
        0 ranges.

Definition orbitals (ranges : list (nat * nat * nat)) (ss : list nat) : nat :=
  foldr Nat.add 0 (map (site_norbs ranges) ss).

(** The discrete-symmetry descriptor ([kwant.physics.DiscreteSymmetry])
    as its instance dictionary: attribute name to value, [None] for
    Python's [None]. *)
Abbreviation descriptor Op := (gmap string (option Op)).

(** [DiscreteSymmetry()] with no argument: every symmetry undeclared. *)
Definition DiscreteSymmetry0 {Op : Type} : descriptor Op :=
  {[ "projectors" := None; "time_reversal" := None;
     "particle_hole" := None; "chiral" := None ]}.

(** The dictionary [attribute_names] of [InfiniteSystemMixin.modes]. *)
Definition attribute_names : gmap string string :=
  {[ "Conservation law" := "projectors";
     "Time reversal" := "time_reversal";
     "Particle-hole" := "particle-hole";
     "Chiral" := "chiral" ]}.

Section Systems.
Context {C Args Params Op : Type}.
(** Zero, subtraction and truthiness of numbers. *)
Variable czero : C.
Variable csub : C -> C -> C.
Variable nonzero : C -> bool.

(** [InfiniteSystem]: a [System] with the attribute [cell_size]. *)
Record InfiniteSystem : Type := mkInfiniteSystem {
  graph : CGraph;
  cell_size : nat;
  system_site_ranges : list (nat * nat * nat);
  hamiltonian : nat -> nat -> Args -> Params -> result (ndarray C);
  system_discrete_symmetry : Args -> Params -> result (descriptor Op)
}.

(** Row [a] of a 2-d array with [q] columns. *)
Definition array_row (q a : nat) (m : ndarray C) : list C :=
  take q (drop (a * q) (flat m)).

(** Modelled from the spec: a part of [_system.hamiltonian_submatrix],
    which is not among the sources.  The block of sites [(i, j)] as its
    list of rows: the value of [hamiltonian] where the graph has the
    site or the hopping, zero elsewhere; a value of the wrong shape is
    refused. *)
Definition submatrix_block (self : InfiniteSystem) (args : Args)
    (params : Params) (i j : nat) : result (list (list C)) :=
  let p := site_norbs (system_site_ranges self) i in
  let q := site_norbs (system_site_ranges self) j in
  if (i =? j)%nat || has_edge (graph self) i j
  then
    (h <- hamiltonian self i j args params ;;
     if bool_decide (shape h = [p; q])
     then Ok (map (fun a => array_row q a h) (seq 0 p))
     else Raise (ValueError "matrix element of the wrong shape"))%res
  else Ok (replicate p (replicate q czero)).

(** Modelled from the spec: a part of [_system.hamiltonian_submatrix].
    The rows contributed by site [i]: its blocks side by side. *)
Definition submatrix_rows (self : InfiniteSystem) (args : Args)
    (params : Params) (from_sites : list nat) (i : nat)
  : result (list (list C)) :=
  let p := site_norbs (system_site_ranges self) i in
  (bs <- comprehension (submatrix_block self args params i) from_sites ;;
   Ok (map (fun a => concat (map (fun b => default [] (b !! a)) bs))
           (seq 0 p)))%res.

(** Modelled from the spec: [_system.hamiltonian_submatrix] (the value
    of [System.hamiltonian_submatrix]) is not among the sources.  The
    specification has it assemble the block matrix over the selected
    rows ([to_sites]) and columns ([from_sites]) by per-pair evaluation
    of [hamiltonian], packed according to the orbital counts of
    [site_ranges], each block having to be of the declared shape;
    [None] selects all sites, and [sparse] only chooses the format. *)
Definition hamiltonian_submatrix (self : InfiniteSystem) (args : Args)
    (to_sites from_sites : option (list nat)) (sparse : bool)
    (params : Params) : result (ndarray C) :=
  let all := seq 0 (num_nodes (graph self)) in
  let rows := default all to_sites in
  let cols := default all from_sites in
  (rs <- comprehension (submatrix_rows self args params cols) rows ;;
   Ok (mkArray [orbitals (system_site_ranges self) rows;
                orbitals (system_site_ranges self) cols]
               (concat (concat rs))))%res.

(** [InfiniteSystem.cell_hamiltonian] *)
Definition cell_hamiltonian (self : InfiniteSystem)
  : Args -> bool -> Params -> result (ndarray C) :=
  deprecate_args (fun args sparse params =>
    let cell_sites := seq 0 (cell_size self) in
    hamiltonian_submatrix self args (Some cell_sites) (Some cell_sites)
                          sparse params).

(** [InfiniteSystem.inter_cell_hopping]; [range(a, b)] is empty when
    [b <= a]. *)
Definition inter_cell_hopping (self : InfiniteSystem)
  : Args -> bool -> Params -> result (ndarray C) :=
  deprecate_args (fun args sparse params =>
    let cell_sites := seq 0 (cell_size self) in
    let interface_sites :=
      seq (cell_size self) (num_nodes (graph self) - cell_size self) in
    hamiltonian_submatrix self args (Some cell_sites) (Some interface_sites)
                          sparse params).

(** *** InfiniteSystemMixin

    The mixin calls methods of [self] that its subclasses provide, and
    two collaborators from [kwant.physics]. *)
Context {Modes : Type}.

Class InfiniteSystemMixin : Type := {
  self_cell_hamiltonian : Args -> Params -> result (ndarray C);
  self_inter_cell_hopping : Args -> Params -> result (ndarray C);
  self_discrete_symmetry : Args -> Params -> result (descriptor Op)
}.

(** [symmetries.validate(matrix)]: the names of the broken symmetries. *)
Variable validate : descriptor Op -> ndarray C -> result (list string).
(** [physics.modes(ham, hop, discrete_symmetry=symmetries)] *)
Variable physics_modes :
  ndarray C -> ndarray C -> descriptor Op -> result Modes.

(** The loop over [broken]: warn, check the name, [setattr] to
    [None]. *)
Fixpoint ignore_broken (broken : list string) (symmetries : descriptor Op)
  : warned (descriptor Op) :=
  match broken with
  | [] => wret symmetries
  | name :: rest =>
      (warn ("Hamiltonian breaks " ++ name
             ++ ", ignoring the symmetry in the computation.") ;;;
       match attribute_names !! name with
       | None =>
           wlift (Raise (AssertionError "Inconsistent naming of symmetries"))
       | Some attr => ignore_broken rest (<[attr := None]> symmetries)
       end)%logged
  end.

(** [ham.flat[::step] -= energy] *)
Definition sub_strided (step : nat) (energy : C) (ham : ndarray C)
  : ndarray C :=
  mkArray (shape ham)
          (imap (fun k x => if (k mod step =? 0)%nat then csub x energy else x)
                (flat ham)).

(** [InfiniteSystemMixin.modes].  A Python set is iterated in an
    order of its own; the order only decides the order of the
    warnings. *)
Definition modes `{InfiniteSystemMixin}
  : C -> Args -> Params -> warned Modes :=
  deprecate_args (fun energy args params =>
  (ham <- wlift (self_cell_hamiltonian args params) ;;
   hop <- wlift (self_inter_cell_hopping args params) ;;
   symmetries <- wlift (self_discrete_symmetry args params) ;;
   b1 <- wlift (validate symmetries ham) ;;
   b2 <- wlift (validate symmetries hop) ;;
   let broken : gset string := list_to_set (b1 ++ b2)%list in
   symmetries <- ignore_broken (elements broken) symmetries ;;
   match shape ham with
   | [n; m] =>
       if (n =? m)%nat
       then
         let ham := sub_strided (n + 1) energy ham in
         let symmetries :=
           if nonzero energy
           then <["particle_hole" := None]> (<["chiral" := None]> symmetries)
           else symmetries in
         wlift (physics_modes ham hop symmetries)
       else wlift (Raise (AssertionError ""))
   | _ => wlift (Raise (AssertionError ""))
   end)%logged).

(** The mixin's methods as [InfiniteSystem] provides them. *)
Definition InfiniteSystem_mixin (self : InfiniteSystem)
  : InfiniteSystemMixin := {|
  self_cell_hamiltonian args params :=
    cell_hamiltonian self args false params;
  self_inter_cell_hopping args params :=
    inter_cell_hopping self args false params;
  self_discrete_symmetry := system_discrete_symmetry self
|}.

(** [InfiniteVectorizedSystem]: a [VectorizedSystem] with
    [cell_size]. *)
Record InfiniteVectorizedSystem : Type := mkInfiniteVectorizedSystem {
  vectorized : VectorizedSystem;
  vectorized_cell_size : nat
}.

(** [InfiniteVectorizedSystem.hamiltonian_submatrix] *)
Definition InfiniteVectorizedSystem_hamiltonian_submatrix
    (self : InfiniteVectorizedSystem) (args : Args)
    (sparse return_norb : bool) (params : Params) : result (ndarray C) :=
  Raise (ValueError
           ("'hamiltonian_submatrix' is not meaningful for infinite"
            ++ "systems. Use 'cell_hamiltonian' or 'inter_cell_hopping.")).
End Systems.

(** ** Finite systems with leads

    [precalculate] copies the system object and gives the copy a new
    list of leads, so objects are kept in a store and named by their
    location.  What the collaborators compute (mode decompositions,
    self-energy matrices) is carried as data. *)

Definition loc : Type := positive.

Section Leads.
Context {Data Energy Args Params : Type}.

(** [PrecalculatedLead]: the attributes set by [__init__]. *)
Record PrecalculatedLead : Type := mkPrecalculatedLead {
  _modes : option Data;
  _selfenergy : option Data;
  parameters : gset string
}.

(** [PrecalculatedLead.__init__] *)
Definition PrecalculatedLead_init (modes selfenergy : option Data)
  : result PrecalculatedLead :=
  match modes, selfenergy with
  | None, None => Raise (ValueError "No precalculated values provided.")
  | _, _ => Ok (mkPrecalculatedLead modes selfenergy ∅)
  end.

(** [PrecalculatedLead.modes] *)
Definition PrecalculatedLead_modes (self : PrecalculatedLead)
  : Energy -> Args -> Params -> result Data :=
  deprecate_args (fun energy args params =>
    match _modes self with
    | Some m => Ok m
    | None =>
        Raise (ValueError ("No precalculated modes were provided. "
                           ++ "Consider using precalculate() with "
                           ++ "what='modes' or what='all'"))
    end).

(** [PrecalculatedLead.selfenergy] *)
Definition PrecalculatedLead_selfenergy (self : PrecalculatedLead)
  : Energy -> Args -> Params -> result Data :=
  deprecate_args (fun energy args params =>
    match _selfenergy self with
    | Some m => Ok m
    | None =>
        Raise (ValueError ("No precalculated selfenergy was provided. "
                           ++ "Consider using precalculate() with "
                           ++ "what='selfenergy' or what='all'"))
    end).

(** Objects of the store: an instance of a system class with its
    attribute dictionary, a Python list, a [PrecalculatedLead], or an
    object of some other class (a lead, a graph, ...). *)
Inductive obj : Type :=
| OSystem (attrs : gmap string loc)
| OList (items : list loc)
| OPrecalculatedLead (p : PrecalculatedLead)
| OForeign.

Abbreviation heap := (gmap loc obj).

(** The methods of leads of other classes, and the [selfenergy] method
    of the second component of a mode decomposition. *)
Variable foreign_modes :
  loc -> Energy -> Args -> Params -> result (option Data).
Variable foreign_selfenergy :
  loc -> Energy -> Args -> Params -> result (option Data).
Variable modes_selfenergy : Data -> result (option Data).
(** Truthiness of a mode decomposition ([if modes:]). *)
Variable data_truthy : Data -> bool.

(** [lead.modes(energy, args, params=params)] *)
Definition lead_modes (h : heap) (lead : loc) (energy : Energy)
    (args : Args) (params : Params) : result (option Data) :=
  match h !! lead with
  | Some (OPrecalculatedLead p) =>
      (m <- PrecalculatedLead_modes p energy args params ;; Ok (Some m))%res
  | Some OForeign => foreign_modes lead energy args params
  | _ => Raise (AttributeError "modes")
  end.

(** [lead.selfenergy(energy, args, params=params)] *)
Definition lead_selfenergy (h : heap) (lead : loc) (energy : Energy)
    (args : Args) (params : Params) : result (option Data) :=
  match h !! lead with
  | Some (OPrecalculatedLead p) =>
      (m <- PrecalculatedLead_selfenergy p energy args params ;;
       Ok (Some m))%res
  | Some OForeign => foreign_selfenergy lead energy args params
  | _ => Raise (AttributeError "selfenergy")
  end.

(** The calls made on behalf of lead number [nr]. *)
Inductive event : Type :=
| CallModes (nr : nat) (lead : loc)
| CallSelfenergy (nr : nat) (lead : loc)
| CallModesSelfenergy (nr : nat) (modes : Data).

Definition what_in (what : string) (choices : list string) : bool :=
  bool_decide (what ∈ choices).

(** [if modes:] *)
Definition truthy (modes : option Data) : bool :=
  match modes with
  | Some d => data_truthy d
  | None => false
  end.

(** The body of the loop of [precalculate] for a selected lead, up to
    the construction of the [PrecalculatedLead]: the values of [modes]
    and [selfenergy]. *)
Definition lead_values (h : heap) (what : string) (energy : Energy)
    (args : Args) (params : Params) (nr : nat) (lead : loc)
  : logged event (option Data * option Data) :=
  (modes <-
     (if what_in what ["modes"; "all"]
      then emit (CallModes nr lead) ;;;
           wlift (lead_modes h lead energy args params)
      else wret None) ;;
   selfenergy <-
     (if what_in what ["selfenergy"; "all"]
      then
        match modes with
        | Some d =>
            if truthy modes
            then emit (CallModesSelfenergy nr d) ;;;
                 wlift (modes_selfenergy d)
            else emit (CallSelfenergy nr lead) ;;;
                 wlift (lead_selfenergy h lead energy args params)
        | None =>
            emit (CallSelfenergy nr lead) ;;;
            wlift (lead_selfenergy h lead energy args params)
        end
      else wret None) ;;
   wret (modes, selfenergy))%logged.

(** The store together with the calls made so far. *)
Record state : Type := mkState {
  objects : heap;
  trace : list event
}.

Definition M (A : Type) : Type := state -> state * result A.

Definition mret {A} (a : A) : M A := fun s => (s, Ok a).

Definition mbind {A B} (m : M A) (k : A -> M B) : M B :=
  fun s => match m s with
           | (s', Ok a) => k a s'
           | (s', Raise e) => (s', Raise e)
           end.

Definition mlift {A} (r : result A) : M A := fun s => (s, r).

(** Run a computation that reads the store and makes calls. *)
Definition mcalls {A} (c : heap -> logged event A) : M A :=
  fun s => let '(evs, r) := c (objects s) in
           (mkState (objects s) (trace s ++ evs)%list, r).

(** A new object, at a location not yet in use. *)
Definition alloc (o : obj) : M loc :=
  fun s => let l := fresh (dom (objects s)) in
           (mkState (<[l := o]> (objects s)) (trace s), Ok l).

(** [getattr(self, name)] on an instance with a dictionary. *)
Definition getattr (self : loc) (name : string) : M loc :=
  fun s => match objects s !! self with
           | Some (OSystem attrs) =>
               match attrs !! name with
               | Some v => (s, Ok v)
               | None => (s, Raise (AttributeError name))
               end
           | _ => (s, Raise (AttributeError name))
           end.

(** [setattr(self, name, value)] *)
Definition setattr (self : loc) (name : string) (value : loc) : M unit :=
  fun s => match objects s !! self with
           | Some (OSystem attrs) =>
               (mkState (<[self := OSystem (<[name := value]> attrs)]>
                           (objects s)) (trace s), Ok tt)
           | _ => (s, Raise (AttributeError name))
           end.

(** The items of a list object. *)
Definition list_items (l : loc) : M (list loc) :=
  fun s => match objects s !! l with
           | Some (OList items) => (s, Ok items)
           | _ => (s, Raise (TypeError "object is not iterable"))
           end.

(** [l.append(x)] *)
Definition append (l x : loc) : M unit :=
  fun s => match objects s !! l with
           | Some (OList items) =>
               (mkState (<[l := OList (items ++ [x])%list]> (objects s))
                        (trace s), Ok tt)
           | _ => (s, Raise (AttributeError "append"))
           end.

(** [copy(self)] from the module [copy]: a new instance of the same
    class whose dictionary has the same entries. *)
Definition copy (self : loc) : M loc :=
  fun s => match objects s !! self with
           | Some (OSystem attrs) => alloc (OSystem attrs) s
           | Some (OList items) => alloc (OList items) s
           | Some (OPrecalculatedLead p) => alloc (OPrecalculatedLead p) s
           | Some OForeign => alloc OForeign s
           | None => (s, Raise (TypeError "no such object"))
           end.

Declare Scope store_scope.
Delimit Scope store_scope with store.
Notation "x <- m ;; k" := (mbind m (fun x => k))
  (at level 100, m at next level, right associativity) : store_scope.
Notation "m ;;; k" := (mbind m (fun _ => k))
  (at level 100, right associativity) : store_scope.

(** [nr not in leads], negated. *)
Definition selected (leads : list Z) (nr : nat) : bool :=
  bool_decide (Z.of_nat nr ∈ leads).

(** The body of the loop of [precalculate] for lead number [nr]. *)
Definition precalculate_lead (new_leads : loc) (leads : list Z)
    (what : string) (energy : Energy) (args : Args) (params : Params)
    (nr : nat) (lead : loc) : M unit :=
  if selected leads nr
  then
    (vals <- mcalls (fun h =>
               lead_values h what energy args params nr lead) ;;
     p <- mlift (PrecalculatedLead_init (fst vals) (snd vals)) ;;
     pl <- alloc (OPrecalculatedLead p) ;;
     append new_leads pl)%store
  else append new_leads lead.

(** The loop [for nr, lead in enumerate(self.leads)] of
    [precalculate], from lead number [nr] on. *)
Fixpoint precalculate_loop (new_leads : loc) (leads : list Z)
    (what : string) (energy : Energy) (args : Args) (params : Params)
    (nr : nat) (items : list loc) : M unit :=
  match items with
  | [] => mret tt
  | lead :: rest =>
      (precalculate_lead new_leads leads what energy args params nr lead ;;;
       precalculate_loop new_leads leads what energy args params
                         (S nr) rest)%store
  end.

(** [FiniteSystemMixin.precalculate] *)
Definition precalculate (self : loc)
  : Energy -> Args -> option (list Z) -> string -> Params -> M loc :=
  deprecate_args (fun energy args leads what params =>
    if negb (what_in what ["modes"; "selfenergy"; "all"])
    then mlift (Raise (ValueError
                         ("Invalid value of argument 'what': " ++ what)))
    else
      (result <- copy self ;;
       self_leads <- getattr self "leads" ;;
       items <- list_items self_leads ;;
       let leads :=
         match leads with
         | None => map Z.of_nat (seq 0 (length items))
         | Some leads => leads
         end in
       new_leads <- alloc (OList []) ;;
       precalculate_loop new_leads leads what energy args params 0 items ;;;
       setattr result "leads" new_leads ;;;
       mret result)%store).
End Leads.

(** ** Example systems

    Small concrete systems on which the statements below are
    exercised. *)

(** Two site arrays: four single-orbital sites and two sites with three
    orbitals each. *)
Definition ribbon : VectorizedSystem :=
  mkVectorizedSystem
    [chain_sites; mkSiteArray (mkSiteFamily "b" "" (Some 3%Z)) [[1%Z]; [2%Z]]]
    [] [].

(** A chain with one site per cell, one orbital per site, vanishing
    onsite energy and unit hopping.  It declares a particle-hole
    symmetry. *)
Definition wire : @InfiniteSystem Z unit unit Z :=
  mkInfiniteSystem (mkGraph 2 [(0, 1); (1, 0)]) 1 [(0, 1, 0); (2, 0, 2)]
    (fun i j _ _ => Ok (mkArray [1; 1] [if Nat.eqb i j then 0%Z else 1%Z]))
    (fun _ _ => Ok (<["particle_hole" := Some 1%Z]> DiscreteSymmetry0)).

(** A validator for real matrices and the particle-hole operator 1: the
    symmetry holds exactly for the zero matrix. *)
Definition wire_validate (symmetries : descriptor Z) (m : ndarray Z)
  : result (list string) :=
  match symmetries !! "particle_hole" with
  | Some (Some _) =>
      if existsb (fun x => negb (x =? 0)%Z) (flat m)
      then Ok ["Particle-hole"]
      else Ok []
  | _ => Ok []
  end.

(** A mode solver that hands back what it was given. *)
Definition echo_modes (ham hop : ndarray Z) (symmetries : descriptor Z)
  : result (ndarray Z * ndarray Z * descriptor Z) :=
  Ok (ham, hop, symmetries).

Definition wire_modes (energy : Z)
  : warned (ndarray Z * ndarray Z * descriptor Z) :=
  @modes Z unit unit Z Z.sub (fun e => negb (e =? 0)%Z) _
         wire_validate echo_modes (InfiniteSystem_mixin 0%Z wire)
         energy tt tt.

(** A store with a system at location 1 whose leads, at 4 and 5, are
    objects of other classes. *)
Definition scattering_region : gmap loc (@obj nat) :=
  {[ 1%positive := OSystem {[ "graph" := 2%positive; "leads" := 3%positive ]};
     2%positive := OForeign;
     3%positive := OList [4%positive; 5%positive];
     4%positive := OForeign;
     5%positive := OForeign ]}.

Definition region_modes (l : loc) (e : Z) (a p : unit)
  : result (option nat) := Ok (Some (10 + Pos.to_nat l)).

Definition region_selfenergy (l : loc) (e : Z) (a p : unit)
  : result (option nat) := Ok (Some (20 + Pos.to_nat l)).

Definition region_modes_selfenergy (d : nat) : result (option nat) :=
  Ok (Some (100 + d)).

Definition region_precalculate (leads : option (list Z)) (what : string)
  : @state nat * result loc :=
  precalculate region_modes region_selfenergy region_modes_selfenergy
               (fun _ => true) 1%positive 0%Z tt leads what tt
               (mkState scattering_region []).

(** ** Shapes accepted by [_normalize_matrix_blocks] *)

(** Number of entries of an array of shape [s]. *)
Definition shape_size (s : list nat) : nat := foldr Nat.mul 1 s.

(** The shapes of the converted input that lead to the expected shape
    [(N, P, Q)]: a scalar or a vector of length [N] when the blocks are
    1x1, a matrix of the block shape, or the expected shape itself. *)
Definition normalizable (s : list nat) (expected_shape : nat * nat * nat)
  : Prop :=
  let '(N, P, Q) := expected_shape in
  (s = [] /\ P = 1 /\ Q = 1)
  \/ (s = [N] /\ P = 1 /\ Q = 1)
  \/ s = [P; Q]
  \/ s = [N; P; Q].

(** ** Well-shaped Hamiltonian values *)

(** The values of [hamiltonian] on the sites and hoppings of the graph
    are arrays of the shape that [site_ranges] declares. *)
Definition blocks_declared {C Args Params Op : Type}
    (self : @InfiniteSystem C Args Params Op) (args : Args)
    (params : Params) : Prop :=
  forall i j,
    i < num_nodes (graph self) -> j < num_nodes (graph self) ->
    i = j \/ (i, j) ∈ edges (graph self) ->
    exists h,
      hamiltonian self i j args params = Ok h
      /\ shape h = [site_norbs (system_site_ranges self) i;
                    site_norbs (system_site_ranges self) j]
      /\ length (flat h)
         = site_norbs (system_site_ranges self) i
           * site_norbs (system_site_ranges self) j.

(** ** The warning for a broken symmetry *)

(** The text handed to [warnings.warn] in [InfiniteSystemMixin.modes]. *)
Definition broken_warning (name : string) : string :=
  "Hamiltonian breaks " ++ name
  ++ ", ignoring the symmetry in the computation.".

(** ** Selected leads *)

(** Whether the loop of [precalculate] over [count] leads replaces lead
    number [nr], for the argument [leads] as the caller gave it. *)
Definition chosen (leads : option (list Z)) (count : nat) (nr : nat) : bool :=
  selected (match leads with
            | None => map Z.of_nat (seq 0 count)
            | Some leads => leads
            end) nr.

(** ** Comparison of site families *)

(** The other operand of a comparison: an object with the attribute
    [canonical_repr] (a site family), or an object without it. *)
Inductive operand : Type :=
| AFamily (other : SiteFamily)
| NoCanonicalRepr.

(** [SiteFamily.__eq__]: an [AttributeError] is turned into [False]. *)
Definition SiteFamily_eq (self : SiteFamily) (other : operand) : bool :=
  match other with
  | AFamily other => String.eqb (canonical_repr self) (canonical_repr other)
  | NoCanonicalRepr => false
  end.

(** [SiteFamily.__ne__]: an [AttributeError] is turned into [True]. *)
Definition SiteFamily_ne (self : SiteFamily) (other : operand) : bool :=
  match other with
  | AFamily other =>
      negb (String.eqb (canonical_repr self) (canonical_repr other))
  | NoCanonicalRepr => true
  end.

(** [SiteFamily.__lt__]: the [AttributeError] is not caught. *)
Definition SiteFamily_lt (self : SiteFamily) (other : operand)
  : result bool :=
  match other with
  | AFamily other =>
      Ok (String.ltb (canonical_repr self) (canonical_repr other))
  | NoCanonicalRepr => Raise (AttributeError "canonical_repr")
  end.

(** [SiteFamily.__hash__]: the attribute [hash] that [__init__] sets to
    [hash(canonical_repr)], for Python's [hash] on strings. *)
Definition SiteFamily_hash (hash : string -> Z) (self : SiteFamily) : Z :=
  hash (canonical_repr self).

(** ** Construction of sites and site arrays *)

(** What indexing gives: an item, or an [IndexError]. *)
Inductive indexed (A : Type) : Type :=
| Item (a : A)
| IndexError.
Arguments Item {A} a.
Arguments IndexError {A}.

(** [seq[key]] for an integer key: a negative key counts from the
    end. *)
Definition getitem {A} (l : list A) (key : Z) : indexed A :=
  let n := Z.of_nat (length l) in
  let k := if (key <? 0)%Z then (key + n)%Z else key in
  if (k <? 0)%Z then IndexError
  else match l !! Z.to_nat k with
       | Some a => Item a
       | None => IndexError
       end.

Section SiteConstruction.
(** [family.normalize_tag(tag)] as the class of the family defines it,
    and [repr] of a tag and of a sequence of tags. *)
Variable normalize_tag : SiteFamily -> Tag -> result Tag.
Variable repr_tag : Tag -> string.
Variable repr_tags : list Tag -> string.

(** The handler [except (TypeError, ValueError) as e] of [Site.__new__]
    and [SiteArray.__init__]: an exception of the same type with the
    message put in context. *)
Definition contextualize (context : string) (e : exn) : exn :=
  match e with
  | TypeError m => TypeError (context ++ m)
  | ValueError m => ValueError (context ++ m)
  | _ => e
  end.

(** [Site.__new__] *)
Definition Site_new (family : SiteFamily) (tag : Tag)
    (_i_know_what_i_do : bool) : result Site :=
  if _i_know_what_i_do then Ok (mkSite family tag)
  else
    match normalize_tag family tag with
    | Ok tag' => Ok (mkSite family tag')
    | Raise e =>
        Raise (contextualize
                 ("Tag " ++ repr_tag tag ++ " is not allowed for site family "
                  ++ canonical_repr family ++ ": ") e)
    end.

(** [Site.__getnewargs__] *)
Definition Site_getnewargs (self : Site) : SiteFamily * Tag * bool :=
  (site_family self, tag self, true).

(** [SiteFamily.normalize_tags], for a family that defines
    [normalize_tag] only. *)
Definition SiteFamily_normalize_tags (family : SiteFamily)
    (tags : list Tag) : result (list Tag) :=
  comprehension (normalize_tag family) tags.

(** [SiteArray.__init__], for such a family. *)
Definition SiteArray_init (family : SiteFamily) (tags : list Tag)
  : result SiteArray :=
  match SiteFamily_normalize_tags family tags with
  | Ok tags' => Ok (mkSiteArray family tags')
  | Raise e =>
      Raise (contextualize
               ("Tags " ++ repr_tags tags
                ++ " are not allowed for site family "
                ++ canonical_repr family ++ ": ") e)
  end.

(** [SiteArray.__getitem__] with an integer key: the tag found is
    handed to [Site], which normalizes it. *)
Definition SiteArray_getitem_site (self : SiteArray) (key : Z)
  : indexed (result Site) :=
  match getitem (tags self) key with
  | Item t => Item (Site_new (family self) t false)
  | IndexError => IndexError
  end.

(** [SiteArray.__getitem__] with a slice [start:stop] of non-negative
    bounds: the tags found are handed to [SiteArray]. *)
Definition SiteArray_getitem_slice (self : SiteArray) (start stop : nat)
  : result SiteArray :=
  SiteArray_init (family self) (take (stop - start) (drop start (tags self))).
End SiteConstruction.

(** ** Self-energy of infinite systems *)

Section InfiniteSelfEnergy.
Context {C Args Params Op SelfEnergy : Type}.
Variable csub : C -> C -> C.
(** [physics.selfenergy(ham, hop)] *)
Variable physics_selfenergy : ndarray C -> ndarray C -> result SelfEnergy.

(** [InfiniteSystemMixin.selfenergy] *)
Definition selfenergy `{M : @InfiniteSystemMixin C Args Params Op}
  : C -> Args -> Params -> result SelfEnergy :=
  deprecate_args (fun energy args params =>
    (ham <- self_cell_hamiltonian args params ;;
     match shape ham with
     | [n; m] =>
         if (n =? m)%nat
         then
           let ham := sub_strided csub (n + 1) energy ham in
           hop <- self_inter_cell_hopping args params ;;
           physics_selfenergy ham hop
         else Raise (AssertionError "")
     | _ => Raise (AssertionError "")
     end)%res).
End InfiniteSelfEnergy.

(** ** The lead number of a call *)

Definition event_nr {Data : Type} (ev : @event Data) : nat :=
  match ev with
  | CallModes nr _ | CallSelfenergy nr _ | CallModesSelfenergy nr _ => nr
  end.

(** ** A family of chain sites

    The tags of the chain are single integers; [normalize_tag] of the
    family accepts those and refuses everything else. *)
Definition chain_normalize_tag (fam : SiteFamily) (t : Tag) : result Tag :=
  match t with
  | [x] => Ok [x]
  | _ => Raise (ValueError "The tag of a chain site is one integer.")
  end.

Definition chain_repr_tag (t : Tag) : string := "<tag>".

Definition chain_repr_tags (ts : list Tag) : string := "<tags>".

(** ** More collaborators for the wire *)

(** A validator that reports a symmetry under a name of its own. *)
Definition mirror_validate (symmetries : descriptor Z) (m : ndarray Z)
  : result (list string) := Ok ["Mirror"].

(** A self-energy routine that hands back what it was given. *)
Definition echo_selfenergy (ham hop : ndarray Z)
  : result (ndarray Z * ndarray Z) := Ok (ham, hop).

(** A system whose cell Hamiltonian comes out with one row and two
    columns. *)
Definition skew_mixin : @InfiniteSystemMixin Z unit unit Z := {|
  self_cell_hamiltonian _ _ := Ok (mkArray [1; 2] [0%Z; 1%Z]);
  self_inter_cell_hopping _ _ := Ok (mkArray [1; 1] [1%Z]);
  self_discrete_symmetry _ _ := Ok DiscreteSymmetry0
|}.

(** ** Precalculated leads that hold a value *)

(** What [PrecalculatedLead.__init__] insists on. *)
Definition holds_value {Data : Type} (p : @PrecalculatedLead Data) : Prop :=
  _modes p <> None \/ _selfenergy p <> None.

(** * Properties *)

(** ** Symmetries *)

Section SymmetryFacts.
Context `{S : Symmetry}.

(** The loop of the [Site] branch answers whether every coordinate is
    zero. *)
Lemma in_fd_loop_all_zero (ds : list Z) :
  in_fd_loop ds = forallb (fun d => (d =? 0)%Z) ds.
Proof.
  induction ds as [|d ds IH]; simpl; [reflexivity|].
  rewrite IH. destruct (d =? 0)%Z; reflexivity.
Qed.

Lemma fold_left_andb_false (row : list bool) :
  fold_left andb row false = false.
Proof. induction row as [|b row IH]; simpl; auto. Qed.

(** The reduction of the [SiteArray] branch answers whether every
    coordinate is different from zero. *)
Lemma logical_and_reduce_ne_zero (row : list Z) :
  logical_and_reduce (map (fun d => negb (d =? 0)%Z) row)
  = forallb (fun d => negb (d =? 0)%Z) row.
Proof.
  unfold logical_and_reduce.
  induction row as [|d row IH]; simpl; [reflexivity|].
  destruct (d =? 0)%Z; simpl; [apply fold_left_andb_false | exact IH].
Qed.

(** [in_fd] on a site: true exactly for the identity element. *)
Lemma in_fd_site (s : Site) (ds : list Z) :
  which (ASite s) = Ok (Elem ds) ->
  in_fd (ASite s) = Ok (FdBool (forallb (fun d => (d =? 0)%Z) ds)).
Proof.
  intros Hw. unfold in_fd. rewrite Hw. simpl.
  now rewrite in_fd_loop_all_zero.
Qed.

(** [in_fd] on a site array: one boolean per row, true exactly when
    no coordinate of the row is zero. *)
Lemma in_fd_site_array (a : SiteArray) (rows : list (list Z)) :
  which (ASiteArray a) = Ok (Elems rows) ->
  in_fd (ASiteArray a)
  = Ok (FdBools (map (forallb (fun d => negb (d =? 0)%Z)) rows)).
Proof.
  intros Hw. unfold in_fd. rewrite Hw. simpl. do 2 f_equal.
  unfold ne_zero. rewrite map_map.
  apply map_ext. intros row. apply logical_and_reduce_ne_zero.
Qed.

(** A site of the fundamental domain of a symmetry with at least one
    direction gets the answer [False] from the array branch. *)
Lemma in_fd_site_array_identity_row (a : SiteArray) (rows : list (list Z))
    (k : nat) (d : Z) (row : list Z) :
  which (ASiteArray a) = Ok (Elems rows) ->
  rows !! k = Some (d :: row) ->
  Forall (fun x => x = 0%Z) (d :: row) ->
  exists bs, in_fd (ASiteArray a) = Ok (FdBools bs) /\ bs !! k = Some false.
Proof.
  intros Hw Hk Hz. eexists. split; [apply (in_fd_site_array _ _ Hw)|].
  rewrite list_lookup_fmap, Hk. simpl.
  inversion Hz; subst. reflexivity.
Qed.
End SymmetryFacts.

(** C1 (the code departs from the claim).  The claim: [in_fd] on a site
    array gives, per site, true exactly when [which] of that site is the
    identity, so that every entry of [in_fd(to_fd(x))] is true.  For the
    chain with period 2 and the sites 0, 1, 2, 5 the array branch answers
    false, false, true, true, the opposite of the answers the site branch
    gives for the same four sites, and it answers false for every site
    of [to_fd] of the array. *)
Theorem in_fd_site_array_inverted :
  @in_fd (Chain 2) (ASiteArray chain_sites)
  = Ok (FdBools [false; false; true; true])
  /\ map (fun t => @in_fd (Chain 2) (ASite (mkSite chain_family t)))
         (tags chain_sites)
     = [Ok (FdBool true); Ok (FdBool true); Ok (FdBool false);
        Ok (FdBool false)]
  /\ exists x,
       @to_fd (Chain 2) (ASiteArray chain_sites) None = Ok (ImSite x)
       /\ @in_fd (Chain 2) x = Ok (FdBools [false; false; false; false]).
Proof.
  split; [reflexivity|]. split; [reflexivity|].
  eexists. split; reflexivity.
Qed.

(** C10.  Every call of [NoSymmetry().subgroup] with star-arguments
    [generators] raises: a [ValueError] saying that generators must be
    empty when some generator is truthy, and otherwise a [TypeError],
    because the tuple of generators is passed to a class that takes no
    constructor argument.  No call returns a symmetry. *)
Theorem NoSymmetry_subgroup_never_returns {obj : Type} (truth : obj -> bool)
    (generators : list obj) :
  NoSymmetry_subgroup truth generators
  = (if any truth generators
     then Raise (ValueError "Generators must be empty for NoSymmetry.")
     else Raise (TypeError "NoSymmetry() takes no arguments"))
  /\ is_ok (NoSymmetry_subgroup truth generators) = false.
Proof.
  unfold NoSymmetry_subgroup, NoSymmetry_call.
  destruct (any truth generators); split; reflexivity.
Qed.

(** [NoSymmetry] itself behaves as the specification says. *)
Lemma NoSymmetry_in_fd_true (site : sites) : NoSymmetry_in_fd site = true.
Proof. reflexivity. Qed.

Lemma NoSymmetry_which_empty (site : sites) :
  @which NoSymmetry site = Ok (Elem []).
Proof. reflexivity. Qed.

Lemma NoSymmetry_to_fd_derived (a : sites) (b : option sites) :
  @to_fd NoSymmetry a b = Ok (NoSymmetry_to_fd a b).
Proof. reflexivity. Qed.

(** ** PrecalculatedLead *)

Section PrecalculatedLeadFacts.
Context {Data Energy Args Params : Type}.

Lemma PrecalculatedLead_init_ok (modes selfenergy : option Data) :
  (modes <> None \/ selfenergy <> None) ->
  @PrecalculatedLead_init Data modes selfenergy
  = Ok (mkPrecalculatedLead modes selfenergy ∅).
Proof. destruct modes, selfenergy; intros [H|H]; simpl; congruence. Qed.

Lemma PrecalculatedLead_init_inv (modes selfenergy : option Data)
    (p : PrecalculatedLead) :
  PrecalculatedLead_init modes selfenergy = Ok p ->
  p = mkPrecalculatedLead modes selfenergy ∅
  /\ (modes <> None \/ selfenergy <> None).
Proof.
  destruct modes, selfenergy; simpl; intros [= <-]; split; auto;
    left; congruence.
Qed.

(** C6.  Constructing a [PrecalculatedLead] from no value raises; a
    lead built from one value alone returns exactly that value from
    the accessor of that value, whatever energy, args and params, and
    raises from the other accessor with a message naming the modes of
    [precalculate] that supply the missing value; [parameters] is the
    empty set for every lead that is constructed. *)
Theorem PrecalculatedLead_accessors :
  @PrecalculatedLead_init Data None None
  = Raise (ValueError "No precalculated values provided.")
  /\ (forall (m : Data) (energy : Energy) (args : Args) (params : Params),
        exists p msg,
          PrecalculatedLead_init (Some m) None = Ok p
          /\ parameters p = ∅
          /\ PrecalculatedLead_modes p energy args params = Ok m
          /\ PrecalculatedLead_selfenergy p energy args params
             = Raise (ValueError msg)
          /\ contains "what='selfenergy'" msg = true
          /\ contains "what='all'" msg = true)
  /\ (forall (m : Data) (energy : Energy) (args : Args) (params : Params),
        exists p msg,
          PrecalculatedLead_init None (Some m) = Ok p
          /\ parameters p = ∅
          /\ PrecalculatedLead_selfenergy p energy args params = Ok m
          /\ PrecalculatedLead_modes p energy args params
             = Raise (ValueError msg)
          /\ contains "what='modes'" msg = true
          /\ contains "what='all'" msg = true)
  /\ (forall modes selfenergy : option Data,
        match PrecalculatedLead_init modes selfenergy with
        | Ok p => parameters p = ∅
        | Raise _ => modes = None /\ selfenergy = None
        end).
Proof.
  split; [reflexivity|]. split; [|split].
  - intros m energy args params. do 2 eexists.
    repeat split; reflexivity.
  - intros m energy args params. do 2 eexists.
    repeat split; reflexivity.
  - intros [m|] [s|]; simpl; auto.
Qed.
End PrecalculatedLeadFacts.

(** ** Infinite vectorized systems *)

(** C9.  [hamiltonian_submatrix] of an [InfiniteVectorizedSystem]
    raises a [ValueError] whatever its arguments; it never returns a
    matrix. *)
Theorem InfiniteVectorizedSystem_hamiltonian_submatrix_raises
    {C Args Params : Type} (self : InfiniteVectorizedSystem) (args : Args)
    (sparse return_norb : bool) (params : Params) :
  (exists msg,
     @InfiniteVectorizedSystem_hamiltonian_submatrix C Args Params
       self args sparse return_norb params = Raise (ValueError msg)
     /\ contains "not meaningful for infinite" msg = true)
  /\ is_ok (@InfiniteVectorizedSystem_hamiltonian_submatrix C Args Params
              self args sparse return_norb params) = false.
Proof.
  split; [|reflexivity]. eexists. split; reflexivity.
Qed.

(** ** Normalization of matrix blocks *)

Section BlocksFacts.
Context {C : Type}.

(** Induction on array-likes, with the hypothesis for every item of a
    sequence. *)
Lemma arraylike_nested_ind (P : arraylike C -> Prop) :
  (forall c, P (Scalar c)) ->
  (forall items, Forall P items -> P (Seq items)) ->
  forall b, P b.
Proof.
  intros Hs Hq. fix IH 1. intros [c|items].
  - apply Hs.
  - apply Hq. induction items as [|x items IHitems]; constructor.
    + apply IH.
    + apply IHitems.
Qed.

(** Conversion of a sequence, through the conversion of its items. *)
Lemma asarray_Seq (items : list (arraylike C)) :
  asarray (Seq items)
  = (subs <- comprehension asarray items ;;
     match subs with
     | [] => Ok (mkArray [0] [])
     | a :: _ =>
         if forallb (fun x => bool_decide (shape x = shape a)) subs
         then Ok (mkArray (length subs :: shape a) (concat (map flat subs)))
         else Raise (TypeError "inhomogeneous array-like")
     end)%res.
Proof.
  simpl. f_equal.
  induction items as [|x items IH]; simpl; [reflexivity|].
  now rewrite IH.
Qed.

Lemma comprehension_Forall {A B} (f : A -> result B) (P : B -> Prop)
    (l : list A) (ys : list B) :
  Forall (fun x => forall y, f x = Ok y -> P y) l ->
  comprehension f l = Ok ys -> Forall P ys.
Proof.
  intros HF. revert ys.
  induction HF as [|x l Hx HF IH]; simpl; intros ys.
  - intros [= <-]. constructor.
  - destruct (f x) as [y|e] eqn:Hfx; simpl; [|discriminate].
    destruct (comprehension f l) as [ys'|e]; simpl; [|discriminate].
    intros [= <-]. constructor; auto.
Qed.

Lemma comprehension_length {A B} (f : A -> result B) (l : list A)
    (ys : list B) :
  comprehension f l = Ok ys -> length ys = length l.
Proof.
  revert ys. induction l as [|x l IH]; simpl; intros ys.
  - now intros [= <-].
  - destruct (f x); simpl; [|discriminate].
    destruct (comprehension f l); simpl; [|discriminate].
    intros [= <-]. simpl. f_equal. now apply IH.
Qed.

Lemma concat_length_uniform {A} (n : nat) (ls : list (list A)) :
  Forall (fun l => length l = n) ls ->
  length (concat ls) = length ls * n.
Proof.
  induction 1 as [|l ls Hl _ IH]; simpl; [reflexivity|].
  rewrite length_app, IH, Hl. reflexivity.
Qed.

(** A converted array-like holds as many entries as its shape says. *)
Lemma asarray_size (b : arraylike C) :
  forall a, asarray b = Ok a -> length (flat a) = shape_size (shape a).
Proof.
  induction b as [c|items IH] using arraylike_nested_ind; intros a.
  - simpl. now intros [= <-].
  - rewrite asarray_Seq.
    destruct (comprehension asarray items) as [subs|e] eqn:Hsubs;
      simpl; [|discriminate].
    pose proof (comprehension_Forall _ _ _ _ IH Hsubs) as Hwf.
    destruct subs as [|a0 subs]; [now intros [= <-]|].
    destruct (forallb _ _) eqn:Hall; [|discriminate].
    intros [= <-]. cbn [shape flat].
    change (length (concat (map flat (a0 :: subs)))
            = length (a0 :: subs) * shape_size (shape a0)).
    rewrite (concat_length_uniform (shape_size (shape a0))).
    + now rewrite length_map.
    + rewrite Forall_map. rewrite forallb_forall in Hall.
      rewrite Forall_forall in Hwf |- *.
      intros x Hx. rewrite (Hwf x Hx).
      apply list_elem_of_In in Hx. apply Hall in Hx.
      apply bool_decide_eq_true_1 in Hx. now rewrite Hx.
Qed.

Lemma string_append_assoc (s1 s2 s3 : string) :
  ((s1 ++ s2) ++ s3 = s1 ++ (s2 ++ s3))%string.
Proof.
  induction s1 as [|ch s1 IH]; [reflexivity|].
  change (String ch ((s1 ++ s2) ++ s3) = String ch (s1 ++ (s2 ++ s3)))%string.
  now rewrite IH.
Qed.

(** The last of three parts joined by spaces ends the joined string. *)
Lemma join_three_parts (p1 p2 p3 : string) :
  (p1 ++ " " ++ p2 ++ " " ++ p3 = (p1 ++ " " ++ p2 ++ " ") ++ p3)%string.
Proof. now rewrite !string_append_assoc. Qed.

Lemma concat_replicate_singleton (n : nat) (c : C) :
  concat (replicate n [c]) = replicate n c.
Proof. induction n as [|n IH]; simpl; congruence. Qed.

Lemma comprehension_raises {A B} (f : A -> result B) (P : exn -> Prop)
    (l : list A) (e : exn) :
  Forall (fun x => forall e, f x = Raise e -> P e) l ->
  comprehension f l = Raise e -> P e.
Proof.
  induction 1 as [|x l Hx _ IH]; simpl; [discriminate|].
  destruct (f x) as [y|e'] eqn:Hfx; simpl.
  - destruct (comprehension f l); simpl; [discriminate|].
    intros [= <-]. now apply IH.
  - intros [= <-]. now apply Hx.
Qed.

(** The conversion fails with a [TypeError] only. *)
Lemma asarray_raises (b : arraylike C) :
  forall e, asarray b = Raise e -> is_TypeError e = true.
Proof.
  induction b as [c|items IH] using arraylike_nested_ind; intros e.
  - discriminate.
  - rewrite asarray_Seq.
    destruct (comprehension asarray items) as [subs|e'] eqn:Hsubs; simpl.
    + destruct subs as [|a0 subs]; [discriminate|].
      destruct (forallb _ _); [discriminate|]. now intros [= <-].
    + intros [= <-].
      exact (comprehension_raises _ (fun e => is_TypeError e = true)
                                  _ _ IH Hsubs).
Qed.

(** A ragged input is refused with a [ValueError]. *)
Lemma normalize_matrix_blocks_ragged (blocks : arraylike C)
    (expected_shape : nat * nat * nat) (cf : pyfunc) (e : exn) :
  asarray blocks = Raise e ->
  _normalize_matrix_blocks blocks expected_shape cf
  = Raise (ValueError "Matrix elements declared with incompatible shapes.").
Proof.
  intros He. unfold _normalize_matrix_blocks. rewrite He.
  apply asarray_raises in He. destruct e; try discriminate. reflexivity.
Qed.

(** The shape test of [_normalize_matrix_blocks], once the input is
    converted and broadcast to [b]. *)
Lemma shape_test_accepts (s : list nat) :
  bool_decide (s ≠ s) = false.
Proof. apply bool_decide_eq_false_2. auto. Qed.

Lemma shape_test_rejects (s t : list nat) :
  s <> t -> bool_decide (s ≠ t) = true.
Proof. intros H. now apply bool_decide_eq_true_2. Qed.

End BlocksFacts.

(** The examples of the specification. *)
Example normalize_scalar_example :
  _normalize_matrix_blocks (Scalar 5%Z) (3, 1, 1) NotCallable
  = Ok (mkArray [3; 1; 1] [5%Z; 5%Z; 5%Z]).
Proof. reflexivity. Qed.

Example normalize_vector_example :
  _normalize_matrix_blocks (Seq [Scalar 1%Z; Scalar 2%Z; Scalar 3%Z])
                           (3, 1, 1) NotCallable
  = Ok (mkArray [3; 1; 1] [1%Z; 2%Z; 3%Z]).
Proof. reflexivity. Qed.

Example normalize_mismatch_example :
  _normalize_matrix_blocks
    (Seq [Seq [Scalar 1%Z; Scalar 0%Z]; Seq [Scalar 0%Z; Scalar 1%Z]])
    (3, 2, 3) (Callable "onsite")
  = Raise (ValueError
      ("Expected values of shape (3, 2, 3), but received values of shape "
       ++ "(3, 2, 2) (broadcasted from shape (2, 2)) when evaluating onsite")).
Proof. reflexivity. Qed.



(** ** Site ranges of vectorized systems *)

Lemma cumsum_from_length (acc : Z) (l : list Z) :
  length (cumsum_from acc l) = length l.
Proof. revert acc. induction l as [|x l IH]; simpl; intros; auto. Qed.

(** Entry [k] of a cumulative sum is the sum of the first [k + 1]
    summands. *)
Lemma cumsum_from_lookup (acc : Z) (l : list Z) (k : nat) :
  k < length l ->
  cumsum_from acc l !! k = Some (acc + foldr Z.add 0 (take (S k) l))%Z.
Proof.
  revert acc k. induction l as [|x l IH]; simpl; intros acc k Hk; [lia|].
  destruct k as [|k]; simpl.
  - f_equal. destruct l; simpl; lia.
  - rewrite IH by lia. f_equal. simpl. lia.
Qed.

Lemma cumsum_zero_lookup (l : list Z) (k : nat) :
  k <= length l ->
  cumsum (0%Z :: l) !! k = Some (foldr Z.add 0%Z (take k l)).
Proof.
  intros Hk. unfold cumsum. rewrite cumsum_from_lookup by (simpl; lia).
  f_equal.
Qed.

(** Row [k] of the transpose of three rows holds their entries [k]. *)
Lemma transpose_three_lookup (a b c : list Z) (k : nat) (x y z : Z) :
  a !! k = Some x -> b !! k = Some y -> c !! k = Some z ->
  transpose [a; b; c] !! k = Some [x; y; z].
Proof.
  intros Ha Hb Hc. simpl.
  rewrite !lookup_zip_with, list_lookup_fmap, Ha, Hb, Hc. reflexivity.
Qed.

Lemma transpose_three_length (a b c : list Z) (n : nat) :
  length a = n -> length b = n -> length c = n ->
  length (transpose [a; b; c]) = n.
Proof.
  intros Ha Hb Hc. simpl.
  rewrite !length_zip_with, length_map. lia.
Qed.

(** With [norbs] declared everywhere, the orbital counts of the site
    arrays are computed without error. *)
Lemma comprehension_array_orbitals (arrs : list SiteArray) :
  Forall (fun arr => is_Some (norbs (family arr))) arrs ->
  comprehension array_orbitals arrs
  = Ok (map (fun arr => (Z.of_nat (SiteArray_len arr)
                         * default 0 (norbs (family arr)))%Z) arrs).
Proof.
  induction 1 as [|arr arrs [n Hn] _ IH]; simpl; [reflexivity|].
  unfold array_orbitals at 1. rewrite Hn, IH. reflexivity.
Qed.



Example site_ranges_ribbon :
  site_ranges ribbon
  = Ok [[0%Z; 1%Z; 0%Z]; [4%Z; 3%Z; 4%Z]; [6%Z; 0%Z; 10%Z]].
Proof. reflexivity. Qed.

(** ** Cell Hamiltonian and inter-cell hopping *)

Lemma comprehension_Forall2 {A B} (f : A -> result B) (R : A -> B -> Prop)
    (l : list A) :
  Forall (fun x => exists y, f x = Ok y /\ R x y) l ->
  exists ys, comprehension f l = Ok ys /\ Forall2 R l ys.
Proof.
  induction 1 as [|x l (y & Hy & HR) _ (ys & Hys & HF)]; simpl.
  - exists []. split; [reflexivity|constructor].
  - exists (y :: ys). rewrite Hy, Hys. split; [reflexivity|].
    now constructor.
Qed.

Section SubmatrixFacts.
Context {C Args Params Op : Type}.
Variable czero : C.
Variable self : @InfiniteSystem C Args Params Op.
Variable args : Args.
Variable params : Params.

Local Abbreviation ranges := (system_site_ranges self).
Local Abbreviation N := (num_nodes (graph self)).

Hypothesis Hblocks : blocks_declared self args params.

Lemma array_row_length (p q a : nat) (h : ndarray C) :
  length (flat h) = p * q -> a < p -> length (array_row q a h) = q.
Proof.
  intros Hlen Ha. unfold array_row.
  rewrite length_take, length_drop, Hlen. nia.
Qed.

Lemma submatrix_block_ok (i j : nat) :
  i < N -> j < N ->
  exists b,
    submatrix_block czero self args params i j = Ok b
    /\ length b = site_norbs ranges i
    /\ Forall (fun r => length r = site_norbs ranges j) b.
Proof.
  intros Hi Hj. unfold submatrix_block.
  destruct ((i =? j)%nat || has_edge (graph self) i j) eqn:Hedge.
  - destruct (Hblocks i j Hi Hj) as (h & Hh & Hshape & Hlen).
    { apply orb_true_iff in Hedge as [Heq|He].
      - left. now apply Nat.eqb_eq.
      - right. unfold has_edge in He. now apply bool_decide_eq_true_1 in He. }
    rewrite Hh. cbn [rbind]. rewrite bool_decide_eq_true_2 by exact Hshape.
    eexists. split; [reflexivity|]. split.
    + now rewrite length_map, length_seq.
    + rewrite Forall_map, Forall_forall. intros a Ha.
      apply list_elem_of_In, in_seq in Ha.
      apply (array_row_length (site_norbs ranges i)); [exact Hlen|lia].
  - eexists. split; [reflexivity|]. split.
    + apply length_replicate.
    + apply Forall_forall. intros r Hr.
      apply elem_of_replicate in Hr as [-> _]. apply length_replicate.
Qed.

(** Blocks side by side: the row [a] across the blocks of the columns
    is as long as the orbitals of the columns. *)
Lemma block_row_length (p a : nat) (cols : list nat)
    (bs : list (list (list C))) :
  Forall2 (fun j b => length b = p
                      /\ Forall (fun r => length r = site_norbs ranges j) b)
          cols bs ->
  a < p ->
  length (concat (map (fun b => default [] (b !! a)) bs))
  = orbitals ranges cols.
Proof.
  intros HF Ha. unfold orbitals.
  induction HF as [|j b cols bs [Hlen Hrows] _ IH]; simpl; [reflexivity|].
  rewrite length_app, IH. f_equal.
  destruct (b !! a) as [r|] eqn:Hr; simpl.
  - rewrite Forall_forall in Hrows. apply Hrows.
    apply list_elem_of_lookup. eauto.
  - apply lookup_ge_None in Hr. lia.
Qed.

Lemma submatrix_rows_ok (cols : list nat) (i : nat) :
  i < N -> Forall (fun j => j < N) cols ->
  exists rs,
    submatrix_rows czero self args params cols i = Ok rs
    /\ length rs = site_norbs ranges i
    /\ Forall (fun r => length r = orbitals ranges cols) rs.
Proof.
  intros Hi Hcols. unfold submatrix_rows.
  destruct (comprehension_Forall2
              (submatrix_block czero self args params i)
              (fun j b => length b = site_norbs ranges i
                          /\ Forall (fun r => length r = site_norbs ranges j) b)
              cols) as (bs & Hbs & HF).
  { eapply Forall_impl; [exact Hcols|]. intros j Hj.
    destruct (submatrix_block_ok i j Hi Hj) as (b & Hb & H1 & H2). eauto. }
  rewrite Hbs. cbn [rbind]. eexists. split; [reflexivity|]. split.
  - now rewrite length_map, length_seq.
  - rewrite Forall_map, Forall_forall. intros a Ha.
    apply list_elem_of_In, in_seq in Ha.
    apply (block_row_length (site_norbs ranges i)); [exact HF|lia].
Qed.

(** Rows on top of each other. *)
Lemma stacked_rows_length (W : nat) (rows : list nat)
    (rs : list (list (list C))) :
  Forall2 (fun i r => length r = site_norbs ranges i
                      /\ Forall (fun x => length x = W) r) rows rs ->
  length (concat (concat rs)) = orbitals ranges rows * W.
Proof.
  intros HF. unfold orbitals.
  induction HF as [|i r rows rs [Hlen Hrows] _ IH]; simpl; [reflexivity|].
  rewrite concat_app, length_app, IH.
  rewrite (concat_length_uniform W r Hrows), Hlen. lia.
Qed.

(** The submatrix over rows and columns of the graph exists, and has
    one row per orbital of the row sites and one column per orbital of
    the column sites. *)
Lemma hamiltonian_submatrix_shape (rows cols : list nat) (sparse : bool) :
  Forall (fun i => i < N) rows -> Forall (fun j => j < N) cols ->
  exists m,
    hamiltonian_submatrix czero self args (Some rows) (Some cols)
                          sparse params = Ok m
    /\ shape m = [orbitals ranges rows; orbitals ranges cols]
    /\ length (flat m) = orbitals ranges rows * orbitals ranges cols.
Proof.
  intros Hrows Hcols. unfold hamiltonian_submatrix. cbv zeta.
  cbn [from_option id].
  destruct (comprehension_Forall2
              (submatrix_rows czero self args params cols)
              (fun i r =>
                 length r = site_norbs ranges i
                 /\ Forall (fun x => length x = orbitals ranges cols) r)
              rows) as (rs & Hrs & HF).
  { eapply Forall_impl; [exact Hrows|]. intros i Hi.
    destruct (submatrix_rows_ok cols i Hi Hcols) as (r & Hr & H1 & H2).
    eauto. }
  rewrite Hrs. cbn [rbind]. eexists. split; [reflexivity|].
  split; [reflexivity|]. cbn [flat].
  now apply stacked_rows_length.
Qed.
End SubmatrixFacts.

(** C8.  For an infinite system whose first [cell_size] sites are the
    cell and whose Hamiltonian values have the declared shapes,
    [cell_hamiltonian] is the submatrix with rows and columns over the
    sites [0 .. cell_size - 1], a square matrix over the orbitals of the
    cell, and [inter_cell_hopping] is the submatrix with those rows and
    with columns over the sites [cell_size .. N - 1], of shape (orbitals
    of the cell, orbitals of the interface). *)
Theorem cell_hamiltonian_inter_cell_hopping_blocks
    {C Args Params Op : Type} (czero : C)
    (self : @InfiniteSystem C Args Params Op) (args : Args) (sparse : bool)
    (params : Params) :
  cell_size self <= num_nodes (graph self) ->
  blocks_declared self args params ->
  let cell_sites := seq 0 (cell_size self) in
  let interface_sites :=
    seq (cell_size self) (num_nodes (graph self) - cell_size self) in
  let orbs := orbitals (system_site_ranges self) in
  exists ham hop,
    cell_hamiltonian czero self args sparse params = Ok ham
    /\ hamiltonian_submatrix czero self args (Some cell_sites)
                             (Some cell_sites) sparse params = Ok ham
    /\ shape ham = [orbs cell_sites; orbs cell_sites]
    /\ length (flat ham) = orbs cell_sites * orbs cell_sites
    /\ inter_cell_hopping czero self args sparse params = Ok hop
    /\ hamiltonian_submatrix czero self args (Some cell_sites)
                             (Some interface_sites) sparse params = Ok hop
    /\ shape hop = [orbs cell_sites; orbs interface_sites]
    /\ length (flat hop) = orbs cell_sites * orbs interface_sites.
Proof.
  intros Hcell Hblocks cell_sites interface_sites orbs.
  assert (Hc : Forall (fun i => i < num_nodes (graph self)) cell_sites).
  { apply Forall_forall. intros i Hi.
    apply list_elem_of_In, in_seq in Hi. lia. }
  assert (Hi : Forall (fun i => i < num_nodes (graph self)) interface_sites).
  { apply Forall_forall. intros i Hi.
    apply list_elem_of_In, in_seq in Hi. lia. }
  destruct (hamiltonian_submatrix_shape czero self args params Hblocks
              cell_sites cell_sites sparse Hc Hc) as (ham & Hham & Hs1 & Hl1).
  destruct (hamiltonian_submatrix_shape czero self args params Hblocks
              cell_sites interface_sites sparse Hc Hi)
    as (hop & Hhop & Hs2 & Hl2).
  exists ham, hop. unfold cell_hamiltonian, inter_cell_hopping, deprecate_args.
  repeat split; assumption.
Qed.

Lemma wire_blocks_declared : blocks_declared wire tt tt.
Proof.
  intros i j Hi Hj _. simpl in Hi, Hj.
  destruct i as [|[|i]]; [| |lia];
    (destruct j as [|[|j]]; [| |lia]);
    eexists; repeat split; reflexivity.
Defined.

(** The wire: a 1x1 cell Hamiltonian and a 1x1 hopping. *)
Lemma cell_hamiltonian_inter_cell_hopping_blocks_witness :
  cell_size wire <= num_nodes (graph wire)
  /\ blocks_declared wire tt tt
  /\ exists ham hop,
       cell_hamiltonian 0%Z wire tt false tt = Ok ham
       /\ hamiltonian_submatrix 0%Z wire tt (Some [0]) (Some [0]) false tt
          = Ok ham
       /\ shape ham = [1; 1]
       /\ length (flat ham) = 1
       /\ inter_cell_hopping 0%Z wire tt false tt = Ok hop
       /\ hamiltonian_submatrix 0%Z wire tt (Some [0]) (Some [1]) false tt
          = Ok hop
       /\ shape hop = [1; 1]
       /\ length (flat hop) = 1.
Proof.
  assert (Hc : cell_size wire <= num_nodes (graph wire)) by (simpl; lia).
  split; [exact Hc|]. split; [exact wire_blocks_declared|].
  exact (cell_hamiltonian_inter_cell_hopping_blocks
           0%Z wire tt false tt Hc wire_blocks_declared).
Defined.

(** ** Mode decomposition of infinite systems *)

(** No name of a broken symmetry is mapped to the attribute
    [particle_hole]. *)
Lemma attribute_names_no_particle_hole (name : string) :
  attribute_names !! name <> Some "particle_hole".
Proof.
  unfold attribute_names. intros H.
  rewrite !lookup_insert_Some, lookup_singleton_Some in H.
  repeat (destruct H as [[_ H]|[_ H]]; [discriminate H|]).
  destruct H as [_ H]. discriminate H.
Qed.

Lemma attribute_names_vocabulary (name : string) :
  is_Some (attribute_names !! name) <->
  name ∈ ["Conservation law"; "Time reversal"; "Particle-hole"; "Chiral"].
Proof.
  unfold attribute_names. split.
  - intros [attr H].
    rewrite !lookup_insert_Some, lookup_singleton_Some in H.
    rewrite !elem_of_cons.
    destruct H as [[<- _]|[_ [[<- _]|[_ [[<- _]|[_ [<- _]]]]]]]; auto 10.
  - rewrite !elem_of_cons. intros [->|[->|[->|[->|H]]]];
      [eexists; reflexivity ..|]. inversion H.
Qed.

Section ModesFacts.
Context {C Args Params Op Modes : Type}.
Variable csub : C -> C -> C.
Variable nonzero : C -> bool.
Variable validate : descriptor Op -> ndarray C -> result (list string).
Variable physics_modes :
  ndarray C -> ndarray C -> descriptor Op -> result Modes.

(** The loop over the broken symmetries warns once per name, sets the
    attribute that [attribute_names] gives for each name to [None], and
    leaves every other attribute as it was. *)
Lemma ignore_broken_spec (names : list string) :
  forall symmetries : descriptor Op,
  Forall (fun name => is_Some (attribute_names !! name)) names ->
  exists symmetries',
    ignore_broken names symmetries
    = (map broken_warning names, Ok symmetries')
    /\ (forall name attr,
          name ∈ names -> attribute_names !! name = Some attr ->
          symmetries' !! attr = Some None)
    /\ (forall attr,
          (forall name, name ∈ names ->
                        attribute_names !! name <> Some attr) ->
          symmetries' !! attr = symmetries !! attr).
Proof.
  induction names as [|name names IH]; intros symmetries Hnames.
  - exists symmetries. split; [reflexivity|]. split; [|reflexivity].
    intros name attr Hin. inversion Hin.
  - inversion Hnames as [|? ? [attr Hattr] Hrest]; subst.
    destruct (IH (<[attr := None]> symmetries) Hrest)
      as (symmetries' & Hrun & Hset & Hkeep).
    exists symmetries'. split; [|split].
    + cbn [ignore_broken]. rewrite Hattr. unfold wbind, warn, emit.
      fold (broken_warning name). rewrite Hrun. reflexivity.
    + intros name' attr' Hin Hattr'.
      destruct (decide (Exists (fun n => attribute_names !! n = Some attr')
                               names)) as [Hex|Hnex].
      * apply Exists_exists in Hex as (n & Hn & Hn').
        now apply (Hset n).
      * apply elem_of_cons in Hin as [->|Hin].
        -- rewrite Hkeep.
           ++ rewrite Hattr in Hattr'. injection Hattr' as <-.
              apply lookup_insert_eq.
           ++ intros n Hn Hn'. apply Hnex, Exists_exists. eauto.
        -- exfalso. apply Hnex, Exists_exists. eauto.
    + intros attr' Hno. rewrite Hkeep.
      * apply lookup_insert_ne. intros ->.
        apply (Hno name); [left|exact Hattr].
      * intros n Hn. apply Hno. now right.
Qed.

(** What [modes] hands to the mode solver when every step before
    succeeds and the validator stays within its vocabulary. *)
Lemma modes_delegates `{M : @InfiniteSystemMixin C Args Params Op}
    (energy : C) (args : Args) (params : Params) (ham hop : ndarray C)
    (symmetries : descriptor Op) (b1 b2 : list string) (n : nat) :
  self_cell_hamiltonian args params = Ok ham ->
  self_inter_cell_hopping args params = Ok hop ->
  self_discrete_symmetry args params = Ok symmetries ->
  validate symmetries ham = Ok b1 ->
  validate symmetries hop = Ok b2 ->
  Forall (fun name => is_Some (attribute_names !! name)) (b1 ++ b2) ->
  shape ham = [n; n] ->
  exists broken symmetries',
    modes csub nonzero validate physics_modes energy args params
    = (map broken_warning broken,
       physics_modes (sub_strided csub (n + 1) energy ham) hop symmetries')
    /\ NoDup broken
    /\ (forall name, name ∈ broken <-> name ∈ (b1 ++ b2)%list)
    /\ (nonzero energy = true ->
        symmetries' !! "particle_hole" = Some None
        /\ symmetries' !! "chiral" = Some None)
    /\ ("Conservation law" ∈ (b1 ++ b2)%list ->
        symmetries' !! "projectors" = Some None)
    /\ ("Time reversal" ∈ (b1 ++ b2)%list ->
        symmetries' !! "time_reversal" = Some None)
    /\ ("Chiral" ∈ (b1 ++ b2)%list ->
        symmetries' !! "chiral" = Some None)
    /\ (nonzero energy = false ->
        symmetries' !! "particle_hole" = symmetries !! "particle_hole").
Proof.
  intros Hham Hhop Hsym Hb1 Hb2 Hvoc Hshape.
  set (broken := elements (list_to_set (b1 ++ b2)%list : gset string)).
  assert (Hbroken : forall name, name ∈ broken <-> name ∈ (b1 ++ b2)%list).
  { intros name. unfold broken.
    now rewrite elem_of_elements, elem_of_list_to_set. }
  destruct (ignore_broken_spec broken symmetries)
    as (symmetries0 & Hrun & Hset & Hkeep).
  { rewrite Forall_forall in Hvoc |- *. intros name Hname.
    apply Hvoc. now apply Hbroken. }
  exists broken.
  exists (if nonzero energy
          then <["particle_hole" := None]> (<["chiral" := None]> symmetries0)
          else symmetries0).
  split; [|split; [|split; [|split; [|split; [|split; [|split]]]]]].
  - unfold modes, deprecate_args.
    rewrite Hham, Hhop, Hsym. unfold wlift at 1 2 3. cbn [wbind].
    rewrite Hb1, Hb2. unfold wlift at 1 2. cbn [wbind].
    fold broken. rewrite Hrun. cbn [wbind].
    rewrite Hshape, Nat.eqb_refl. unfold wlift.
    now rewrite !app_nil_r.
  - apply NoDup_elements.
  - exact Hbroken.
  - intros ->. split.
    + apply lookup_insert_eq.
    + rewrite lookup_insert_ne by discriminate. apply lookup_insert_eq.
  - intros Hin. apply Hbroken in Hin.
    assert (symmetries0 !! "projectors" = Some None)
      by (now apply (Hset "Conservation law")).
    destruct (nonzero energy); [|assumption].
    now rewrite !lookup_insert_ne by discriminate.
  - intros Hin. apply Hbroken in Hin.
    assert (symmetries0 !! "time_reversal" = Some None)
      by (now apply (Hset "Time reversal")).
    destruct (nonzero energy); [|assumption].
    now rewrite !lookup_insert_ne by discriminate.
  - intros Hin. apply Hbroken in Hin.
    assert (symmetries0 !! "chiral" = Some None)
      by (now apply (Hset "Chiral")).
    destruct (nonzero energy); [|assumption].
    rewrite lookup_insert_ne by discriminate. apply lookup_insert_eq.
  - intros ->. apply Hkeep. intros name _.
    apply attribute_names_no_particle_hole.
Qed.
End ModesFacts.

(** In a square matrix with [n] rows stored row by row, the entries
    whose position is a multiple of [n + 1] are those of the diagonal. *)
Lemma diagonal_position (n i j : nat) :
  i < n -> j < n -> ((i * n + j) mod (n + 1) = 0 <-> i = j).
Proof.
  intros Hi Hj.
  destruct (lt_eq_lt_dec i j) as [[Hlt|Heq]|Hgt].
  - rewrite <- (Nat.mod_unique (i * n + j) (n + 1) i (j - i)); [lia|lia|nia].
  - subst j. replace (i * n + i) with (i * (n + 1)) by nia.
    rewrite Nat.Div0.mod_mul. tauto.
  - rewrite <- (Nat.mod_unique (i * n + j) (n + 1) (i - 1) (n + 1 - (i - j)));
      [lia|lia|nia].
Qed.

(** [ham.flat[::n + 1] -= energy] subtracts the energy from the
    diagonal of a matrix with [n] rows and columns, and from nothing
    else. *)
Lemma sub_strided_diagonal {C : Type} (csub : C -> C -> C) (n : nat)
    (energy : C) (ham : ndarray C) (i j : nat) (x : C) :
  i < n -> j < n ->
  flat ham !! (i * n + j) = Some x ->
  shape (sub_strided csub (n + 1) energy ham) = shape ham
  /\ flat (sub_strided csub (n + 1) energy ham) !! (i * n + j)
     = Some (if decide (i = j) then csub x energy else x).
Proof.
  intros Hi Hj Hx. split; [reflexivity|]. cbn [sub_strided flat].
  rewrite list_lookup_imap, Hx. cbn [fmap option_fmap option_map]. f_equal.
  destruct (decide (i = j)) as [Heq|Hne].
  - apply (diagonal_position n i j Hi Hj) in Heq. now rewrite Heq.
  - destruct ((i * n + j) mod (n + 1) =? 0)%nat eqn:Hmod; [|reflexivity].
    apply Nat.eqb_eq, (diagonal_position n i j Hi Hj) in Hmod. contradiction.
Qed.

(** C2 (the code departs from the claim).  The claim has every symmetry
    that validation reports broken disabled, its attribute on the
    descriptor set to [None].  For the wire at energy 0, whose declared
    particle-hole symmetry is reported broken by the hopping, [modes]
    warns and then hands the mode solver a descriptor whose
    [particle_hole] still holds the operator: the name "Particle-hole"
    is mapped to the attribute "particle-hole", which is the one set to
    [None]. *)
Theorem modes_keeps_broken_particle_hole :
  exists ham hop symmetries,
    wire_modes 0
    = ([broken_warning "Particle-hole"], Ok (ham, hop, symmetries))
    /\ symmetries !! "particle_hole" = Some (Some 1%Z)
    /\ symmetries !! "particle-hole" = Some None
    /\ wire_validate (<["particle_hole" := Some 1%Z]> DiscreteSymmetry0) hop
       = Ok ["Particle-hole"].
Proof.
  exists (mkArray [1; 1] [0%Z]), (mkArray [1; 1] [1%Z]).
  exists (<["particle-hole" := None]>
            (<["particle_hole" := Some 1%Z]> DiscreteSymmetry0)).
  split; [vm_compute; reflexivity|].
  split; [reflexivity|]. split; reflexivity.
Qed.

(** At a nonzero energy the two symmetries are disabled. *)
Example wire_modes_nonzero_energy :
  exists ham hop symmetries,
    snd (wire_modes 3) = Ok (ham, hop, symmetries)
    /\ flat ham = [(-3)%Z]
    /\ symmetries !! "particle_hole" = Some None
    /\ symmetries !! "chiral" = Some None.
Proof.
  exists (mkArray [1; 1] [(-3)%Z]), (mkArray [1; 1] [1%Z]).
  exists (<["particle_hole" := None]>
            (<["chiral" := None]>
               (<["particle-hole" := None]>
                  (<["particle_hole" := Some 1%Z]> DiscreteSymmetry0)))).
  split; [vm_compute; reflexivity|].
  split; [reflexivity|]. split; reflexivity.
Qed.

(** ** Precalculated leads of finite systems *)

Section PrecalculateFacts.
Context {Data Energy Args Params : Type}.
Variable foreign_modes :
  loc -> Energy -> Args -> Params -> result (option Data).
Variable foreign_selfenergy :
  loc -> Energy -> Args -> Params -> result (option Data).
Variable modes_selfenergy : Data -> result (option Data).
Variable data_truthy : Data -> bool.

Local Abbreviation values :=
  (lead_values foreign_modes foreign_selfenergy modes_selfenergy data_truthy).
Local Abbreviation body :=
  (precalculate_lead foreign_modes foreign_selfenergy modes_selfenergy
                     data_truthy).
Local Abbreviation loop :=
  (precalculate_loop foreign_modes foreign_selfenergy modes_selfenergy
                     data_truthy).

(** The calls for a lead depend on the store through the lead alone. *)
Lemma lead_values_ext (h h' : gmap loc (@obj Data)) (what : string)
    (energy : Energy) (args : Args) (params : Params) (nr : nat)
    (lead : loc) :
  h !! lead = h' !! lead ->
  values h what energy args params nr lead
  = values h' what energy args params nr lead.
Proof.
  intros Heq. unfold lead_values, lead_modes, lead_selfenergy.
  now rewrite Heq.
Qed.

Lemma fresh_not_allocated (h : gmap loc (@obj Data)) :
  h !! fresh (dom h) = None.
Proof. apply not_elem_of_dom, is_fresh. Qed.

(** The body of the loop for a selected lead. *)
Lemma precalculate_lead_selected (nl : loc) (leads : list Z) (what : string)
    (energy : Energy) (args : Args) (params : Params) (nr : nat)
    (lead : loc) (s : state) (acc : list loc) :
  selected leads nr = true ->
  objects s !! nl = Some (OList acc) ->
  body nl leads what energy args params nr lead s
  = match values (objects s) what energy args params nr lead with
    | (evs, Raise err) =>
        (mkState (objects s) (trace s ++ evs), Raise err)
    | (evs, Ok vals) =>
        match PrecalculatedLead_init (fst vals) (snd vals) with
        | Raise err => (mkState (objects s) (trace s ++ evs), Raise err)
        | Ok pl =>
            let x := fresh (dom (objects s)) in
            (mkState (<[nl := OList (acc ++ [x])]>
                        (<[x := OPrecalculatedLead pl]> (objects s)))
                     (trace s ++ evs), Ok tt)
        end
    end.
Proof.
  intros Hsel Hnl. unfold precalculate_lead. rewrite Hsel.
  unfold mbind, mcalls, mlift, alloc, append.
  destruct (values (objects s) what energy args params nr lead)
    as [evs [vals|err]]; [|reflexivity].
  destruct (PrecalculatedLead_init (fst vals) (snd vals)) as [pl|err];
    [|reflexivity].
  cbn [objects trace].
  rewrite lookup_insert_ne, Hnl; [reflexivity|].
  intros Heq. rewrite <- Heq, fresh_not_allocated in Hnl. discriminate.
Qed.

(** The body of the loop for a lead that is not selected. *)
Lemma precalculate_lead_unselected (nl : loc) (leads : list Z)
    (what : string) (energy : Energy) (args : Args) (params : Params)
    (nr : nat) (lead : loc) (s : state) (acc : list loc) :
  selected leads nr = false ->
  objects s !! nl = Some (OList acc) ->
  body nl leads what energy args params nr lead s
  = (mkState (<[nl := OList (acc ++ [lead])]> (objects s)) (trace s), Ok tt).
Proof.
  intros Hsel Hnl. unfold precalculate_lead. rewrite Hsel.
  unfold append. now rewrite Hnl.
Qed.

(** The loop of [precalculate] from lead number [nr] on, started with
    the list [acc] at [nl]: it only logs calls made for selected leads,
    changes no object but the list at [nl], to which it appends; when it
    completes, the list has grown by one entry per lead, a new
    [PrecalculatedLead] with the computed values for a selected lead and
    the lead itself otherwise; and it completes when the values of all
    selected leads are computed and not both [None]. *)
Lemma precalculate_loop_spec (nl : loc) (leads : list Z) (what : string)
    (energy : Energy) (args : Args) (params : Params) (items : list loc) :
  forall (nr : nat) (s : state) (acc : list loc),
  objects s !! nl = Some (OList acc) ->
  Forall (fun lead => lead <> nl /\ is_Some (objects s !! lead)) items ->
  exists s' r evs new,
    loop nl leads what energy args params nr items s = (s', r)
    /\ trace s' = (trace s ++ evs)%list
    /\ (forall l o, l <> nl -> objects s !! l = Some o ->
                    objects s' !! l = Some o)
    /\ (forall l, objects s' !! l = None -> objects s !! l = None)
    /\ objects s' !! nl = Some (OList (acc ++ new))
    /\ (forall ev, ev ∈ evs ->
          exists k lead,
            items !! k = Some lead /\ selected leads (nr + k) = true
            /\ ev ∈ (values (objects s) what energy args params
                            (nr + k) lead).1)
    /\ (r = Ok tt ->
        length new = length items
        /\ forall k lead,
             items !! k = Some lead ->
             if selected leads (nr + k)
             then exists x pl,
                    new !! k = Some x
                    /\ objects s !! x = None
                    /\ objects s' !! x = Some (OPrecalculatedLead pl)
                    /\ (values (objects s) what energy args params
                                (nr + k) lead).2
                       = Ok (_modes pl, _selfenergy pl)
                    /\ (forall ev,
                          ev ∈ (values (objects s) what energy args params
                                       (nr + k) lead).1 ->
                          ev ∈ evs)
             else new !! k = Some lead)
    /\ ((forall k lead,
           items !! k = Some lead -> selected leads (nr + k) = true ->
           exists m σ,
             (values (objects s) what energy args params (nr + k) lead).2
             = Ok (m, σ)
             /\ (m <> None \/ σ <> None)) ->
        r = Ok tt).
Proof.
  induction items as [|lead rest IH]; intros nr s acc Hnl Hitems.
  - exists s, (Ok tt), [], []. rewrite !app_nil_r.
    repeat split; auto.
    + intros ev Hev. inversion Hev.
    + intros k lead Hk. inversion Hk.
  - inversion Hitems as [|? ? [Hlead_nl Hlead_dom] Hrest]; subst.
    cbn [precalculate_loop]. unfold mbind at 1.
    destruct (selected leads nr) eqn:Hsel.
    + rewrite (precalculate_lead_selected _ _ _ _ _ _ _ _ _ acc Hsel Hnl).
      destruct (values (objects s) what energy args params nr lead)
        as [evs1 [vals|err]] eqn:Hvals.
      * destruct (PrecalculatedLead_init (fst vals) (snd vals))
          as [pl|err] eqn:Hinit.
        -- (* the lead is replaced, the loop goes on *)
           set (x := fresh (dom (objects s))).
           assert (Hx : objects s !! x = None) by apply fresh_not_allocated.
           assert (Hx_nl : nl <> x).
           { intros ->. rewrite Hx in Hnl. discriminate. }
           set (s1 := mkState (<[nl := OList (acc ++ [x])]>
                                 (<[x := OPrecalculatedLead pl]> (objects s)))
                              (trace s ++ evs1)).
           assert (Hkeep : forall l, l <> nl -> l <> x ->
                     objects s1 !! l = objects s !! l).
           { intros l H1 H2. cbn.
             now rewrite !lookup_insert_ne by congruence. }
           destruct (IH (S nr) s1 (acc ++ [x])%list)
             as (s' & r & evs2 & new2 & Hrun & Htrace & Hframe & Hfree
                 & Hlist & Hevs & Hdone & Hcompl).
           { cbn. apply lookup_insert_eq. }
           { eapply Forall_impl; [exact Hrest|]. intros l [H1 [o H2]].
             split; [exact H1|]. rewrite Hkeep; [eauto|exact H1|].
             intros ->. rewrite Hx in H2. discriminate. }
           assert (Hsame : forall n k l, rest !! k = Some l ->
                     values (objects s1) what energy args params n l
                     = values (objects s) what energy args params n l).
           { intros n k l Hk. apply lead_values_ext.
             rewrite Forall_forall in Hrest.
             destruct (Hrest l) as [H1 [o H2]];
               [apply list_elem_of_lookup; eauto|].
             apply Hkeep; [exact H1|].
             intros ->. rewrite Hx in H2. discriminate. }
           exists s', r, (evs1 ++ evs2)%list, (x :: new2).
           split; [exact Hrun|].
           split; [rewrite Htrace; cbn; now rewrite app_assoc|].
           split.
           { intros l o H1 H2. apply Hframe; [exact H1|].
             rewrite Hkeep; [exact H2|exact H1|].
             intros ->. rewrite Hx in H2. discriminate. }
           split.
           { intros l Hl. apply Hfree in Hl. cbn in Hl.
             apply lookup_insert_None in Hl as [Hl _].
             now apply lookup_insert_None in Hl as [Hl _]. }
           split.
           { rewrite Hlist. now rewrite <- app_assoc. }
           split.
           { intros ev Hev. apply elem_of_app in Hev as [Hev|Hev].
             - exists 0, lead. rewrite Nat.add_0_r, Hvals. auto.
             - destruct (Hevs ev Hev) as (k & l & Hk & Hs & Hin).
               exists (S k), l. replace (nr + S k) with (S nr + k) by lia.
               rewrite <- (Hsame _ k l Hk). auto. }
           split.
           { intros Hr. destruct (Hdone Hr) as [Hlen Hentries].
             split; [cbn; now rewrite Hlen|].
             intros [|k] l Hk.
             - injection Hk as <-. rewrite Nat.add_0_r, Hsel, Hvals.
               exists x, pl. split; [reflexivity|]. split; [exact Hx|].
               split; [|split].
               + apply Hframe; [congruence|]. cbn.
                 rewrite lookup_insert_ne by exact Hx_nl.
                 apply lookup_insert_eq.
               + apply PrecalculatedLead_init_inv in Hinit as [-> _].
                 now destruct vals.
               + intros ev Hev. apply elem_of_app. now left.
             - cbn in Hk. specialize (Hentries k l Hk).
               replace (nr + S k) with (S nr + k) by lia.
               rewrite (Hsame _ k l Hk) in Hentries.
               destruct (selected leads (S nr + k)); [|exact Hentries].
               destruct Hentries as (x' & pl' & H1 & H2 & H3 & H4 & H5).
               exists x', pl'. split; [exact H1|].
               split; [|split; [exact H3|split; [exact H4|]]].
               * cbn in H2. apply lookup_insert_None in H2 as [H2 _].
                 now apply lookup_insert_None in H2 as [H2 _].
               * intros ev Hev. apply elem_of_app. right. now apply H5. }
           intros Hall. apply Hcompl. intros k l Hk Hs.
           rewrite (Hsame _ k l Hk).
           replace (S nr + k) with (nr + S k) in * by lia.
           now apply Hall.
        -- (* no value at all: the constructor raises *)
           exists (mkState (objects s) (trace s ++ evs1)), (Raise err),
                  evs1, [].
           rewrite app_nil_r. repeat split; auto; try discriminate.
           ++ intros ev Hev. exists 0, lead.
              rewrite Nat.add_0_r, Hvals. auto.
           ++ intros Hall. destruct (Hall 0 lead eq_refl) as (m & σ & H1 & H2).
              { now rewrite Nat.add_0_r. }
              rewrite Nat.add_0_r, Hvals in H1. cbn in H1.
              injection H1 as ->. cbn in Hinit.
              rewrite PrecalculatedLead_init_ok in Hinit by exact H2.
              discriminate.
      * (* a call for the lead raises *)
        exists (mkState (objects s) (trace s ++ evs1)), (Raise err), evs1, [].
        rewrite app_nil_r. repeat split; auto; try discriminate.
        -- intros ev Hev. exists 0, lead. rewrite Nat.add_0_r, Hvals. auto.
        -- intros Hall. destruct (Hall 0 lead eq_refl) as (m & σ & H1 & _).
           { now rewrite Nat.add_0_r. }
           rewrite Nat.add_0_r, Hvals in H1. discriminate.
    + (* the lead passes through *)
      rewrite (precalculate_lead_unselected _ _ _ _ _ _ _ _ _ acc Hsel Hnl).
      set (s1 := mkState (<[nl := OList (acc ++ [lead])]> (objects s))
                         (trace s)).
      assert (Hkeep : forall l, l <> nl -> objects s1 !! l = objects s !! l).
      { intros l H1. cbn. now rewrite lookup_insert_ne by congruence. }
      destruct (IH (S nr) s1 (acc ++ [lead])%list)
        as (s' & r & evs2 & new2 & Hrun & Htrace & Hframe & Hfree
            & Hlist & Hevs & Hdone & Hcompl).
      { cbn. apply lookup_insert_eq. }
      { eapply Forall_impl; [exact Hrest|]. intros l [H1 H2].
        split; [exact H1|]. now rewrite Hkeep. }
      assert (Hsame : forall n k l, rest !! k = Some l ->
                values (objects s1) what energy args params n l
                = values (objects s) what energy args params n l).
      { intros n k l Hk. apply lead_values_ext.
        rewrite Forall_forall in Hrest.
        destruct (Hrest l) as [H1 _]; [apply list_elem_of_lookup; eauto|].
        now apply Hkeep. }
      exists s', r, evs2, (lead :: new2).
      split; [exact Hrun|]. split; [exact Htrace|].
      split.
      { intros l o H1 H2. apply Hframe; [exact H1|]. now rewrite Hkeep. }
      split.
      { intros l Hl. apply Hfree in Hl. cbn in Hl.
        now apply lookup_insert_None in Hl as [Hl _]. }
      split.
      { rewrite Hlist. now rewrite <- app_assoc. }
      split.
      { intros ev Hev. destruct (Hevs ev Hev) as (k & l & Hk & Hs & Hin).
        exists (S k), l. replace (nr + S k) with (S nr + k) by lia.
        rewrite <- (Hsame _ k l Hk). auto. }
      split.
      { intros Hr. destruct (Hdone Hr) as [Hlen Hentries].
        split; [cbn; now rewrite Hlen|].
        intros [|k] l Hk.
        - injection Hk as <-. now rewrite Nat.add_0_r, Hsel.
        - cbn in Hk. specialize (Hentries k l Hk).
          replace (nr + S k) with (S nr + k) by lia.
          rewrite (Hsame _ k l Hk) in Hentries.
          destruct (selected leads (S nr + k)); [|exact Hentries].
          destruct Hentries as (x' & pl' & H1 & H2 & H3 & H4 & H5).
          exists x', pl'. split; [exact H1|].
          split; [|split; [exact H3|split; [exact H4|exact H5]]].
          cbn in H2. now apply lookup_insert_None in H2 as [H2 _]. }
      intros Hall. apply Hcompl. intros k l Hk Hs.
      rewrite (Hsame _ k l Hk).
      replace (S nr + k) with (nr + S k) in * by lia.
      now apply Hall.
Qed.

Local Abbreviation precalc :=
  (precalculate foreign_modes foreign_selfenergy modes_selfenergy
                data_truthy).

(** [precalculate] on a system whose attribute [leads] is a list of
    existing objects. *)
Lemma precalculate_spec (s : state) (self ll : loc)
    (attrs : gmap string loc) (items : list loc) (energy : Energy)
    (args : Args) (leads : option (list Z)) (what : string)
    (params : Params) :
  objects s !! self = Some (OSystem attrs) ->
  attrs !! "leads" = Some ll ->
  objects s !! ll = Some (OList items) ->
  Forall (fun lead => is_Some (objects s !! lead)) items ->
  what ∈ ["modes"; "selfenergy"; "all"] ->
  exists s' r evs,
    precalc self energy args leads what params s = (s', r)
    /\ trace s' = (trace s ++ evs)%list
    /\ (forall l o, objects s !! l = Some o -> objects s' !! l = Some o)
    /\ (forall ev, ev ∈ evs ->
          exists k lead,
            items !! k = Some lead
            /\ chosen leads (length items) k = true
            /\ ev ∈ (values (objects s) what energy args params k lead).1)
    /\ (forall res, r = Ok res ->
          objects s !! res = None
          /\ exists nl new,
               objects s' !! res = Some (OSystem (<["leads" := nl]> attrs))
               /\ objects s !! nl = None
               /\ objects s' !! nl = Some (OList new)
               /\ length new = length items
               /\ forall k lead,
                    items !! k = Some lead ->
                    if chosen leads (length items) k
                    then exists x pl,
                           new !! k = Some x
                           /\ objects s !! x = None
                           /\ objects s' !! x = Some (OPrecalculatedLead pl)
                           /\ (values (objects s) what energy args params
                                       k lead).2
                              = Ok (_modes pl, _selfenergy pl)
                           /\ (forall ev,
                                 ev ∈ (values (objects s) what energy args
                                              params k lead).1 ->
                                 ev ∈ evs)
                    else new !! k = Some lead)
    /\ ((forall k lead,
           items !! k = Some lead ->
           chosen leads (length items) k = true ->
           exists m σ,
             (values (objects s) what energy args params k lead).2
             = Ok (m, σ)
             /\ (m <> None \/ σ <> None)) ->
        exists res, r = Ok res).
Proof.
  intros Hself Hleads Hll Hclosed Hwhat.
  unfold precalculate, deprecate_args, what_in.
  rewrite bool_decide_eq_true_2 by exact Hwhat. cbn [negb].
  unfold mbind at 1. unfold copy. rewrite Hself. unfold alloc at 1.
  set (res := fresh (dom (objects s))).
  assert (Hres : objects s !! res = None) by apply fresh_not_allocated.
  set (s1 := mkState (<[res := OSystem attrs]> (objects s)) (trace s)).
  assert (Hs1 : forall l, l <> res -> objects s1 !! l = objects s !! l).
  { intros l Hl. cbn. now rewrite lookup_insert_ne by congruence. }
  assert (Hne : forall l o, objects s !! l = Some o -> l <> res).
  { intros l o Hl ->. rewrite Hres in Hl. discriminate. }
  unfold mbind at 1. unfold getattr.
  rewrite (Hs1 self (Hne _ _ Hself)), Hself, Hleads.
  unfold mbind at 1. unfold list_items.
  rewrite (Hs1 ll (Hne _ _ Hll)), Hll.
  unfold mbind at 1. unfold alloc at 1.
  set (nl := fresh (dom (objects s1))).
  assert (Hnl : objects s1 !! nl = None) by apply fresh_not_allocated.
  assert (Hnl_res : nl <> res).
  { intros Heq. rewrite Heq in Hnl. cbn in Hnl.
    rewrite lookup_insert_eq in Hnl. discriminate. }
  assert (Hnl_s : objects s !! nl = None).
  { now rewrite <- (Hs1 nl Hnl_res). }
  set (s2 := mkState (<[nl := OList []]> (objects s1)) (trace s1)).
  assert (Hs2 : forall l o, objects s !! l = Some o ->
                            objects s2 !! l = Some o /\ l <> nl /\ l <> res).
  { intros l o Hl.
    assert (l <> nl) by (intros ->; rewrite Hnl_s in Hl; discriminate).
    assert (l <> res) by (eapply Hne; eauto).
    split; [|auto]. cbn. now rewrite !lookup_insert_ne by congruence. }
  set (leads' := match leads with
                 | None => map Z.of_nat (seq 0 (length items))
                 | Some leads0 => leads0
                 end).
  destruct (precalculate_loop_spec nl leads' what energy args params items
                                   0 s2 [])
    as (s3 & r & evs & new & Hrun & Htrace & Hframe & Hfree & Hlist
        & Hevs & Hdone & Hcompl).
  { cbn. apply lookup_insert_eq. }
  { eapply Forall_impl; [exact Hclosed|]. intros l [o Hl].
    destruct (Hs2 l o Hl) as (H1 & H2 & _). eauto. }
  assert (Hsame : forall n k l, items !! k = Some l ->
            values (objects s2) what energy args params n l
            = values (objects s) what energy args params n l).
  { intros n k l Hk. apply lead_values_ext.
    rewrite Forall_forall in Hclosed.
    destruct (Hclosed l) as [o Hl]; [apply list_elem_of_lookup; eauto|].
    destruct (Hs2 l o Hl) as (H1 & _). now rewrite H1, Hl. }
  assert (Hfree_s : forall l, objects s3 !! l = None ->
                              objects s !! l = None /\ l <> res).
  { intros l Hl. apply Hfree in Hl. cbn in Hl.
    apply lookup_insert_None in Hl as [Hl _].
    apply lookup_insert_None in Hl as [Hl Hl']. auto. }
  assert (Hres3 : objects s3 !! res = Some (OSystem attrs)).
  { apply Hframe; [congruence|]. cbn.
    rewrite lookup_insert_ne by exact Hnl_res. apply lookup_insert_eq. }
  unfold mbind at 1. rewrite Hrun.
  destruct r as [[]|err].
  - (* the loop completes *)
    unfold mbind, setattr, mret. rewrite Hres3.
    destruct (Hdone eq_refl) as [Hlen Hentries].
    eexists _, (Ok res), evs. split; [reflexivity|].
    split; [exact Htrace|].
    split.
    { intros l o Hl. destruct (Hs2 l o Hl) as (H1 & H2 & H3). cbn.
      rewrite lookup_insert_ne by congruence. now apply Hframe. }
    split.
    { intros ev Hev. destruct (Hevs ev Hev) as (k & l & Hk & Hs & Hin).
      exists k, l. rewrite <- (Hsame k k l Hk). auto. }
    split.
    { intros res' [= <-]. split; [exact Hres|].
      exists nl, new. cbn [objects].
      split; [apply lookup_insert_eq|]. split; [exact Hnl_s|].
      split; [now rewrite lookup_insert_ne by congruence|].
      split; [exact Hlen|].
      intros k l Hk. specialize (Hentries k l Hk). cbn [Nat.add] in Hentries.
      unfold chosen. fold leads'.
      destruct (selected leads' k); [|exact Hentries].
      destruct Hentries as (x & pl & H1 & H2 & H3 & H4 & H5).
      assert (Hx : objects s !! x = None /\ x <> res).
      { cbn in H2. apply lookup_insert_None in H2 as [H2 _].
        apply lookup_insert_None in H2 as [H2 H2']. auto. }
      exists x, pl. split; [exact H1|]. split; [apply Hx|].
      split.
      { rewrite lookup_insert_ne by (intros Heq; now apply Hx). exact H3. }
      rewrite <- (Hsame k k l Hk). auto. }
    intros _. eauto.
  - (* a call or a constructor raises *)
    exists s3, (Raise err), evs. split; [reflexivity|].
    split; [exact Htrace|].
    split.
    { intros l o Hl. destruct (Hs2 l o Hl) as (H1 & H2 & H3).
      now apply Hframe. }
    split.
    { intros ev Hev. destruct (Hevs ev Hev) as (k & l & Hk & Hs & Hin).
      exists k, l. rewrite <- (Hsame k k l Hk). auto. }
    split; [discriminate|].
    intros Hall. exfalso.
    assert (Raise err = Ok tt :> result unit); [|discriminate].
    apply Hcompl. intros k l Hk Hs. cbn [Nat.add].
    rewrite (Hsame k k l Hk). now apply Hall.
Qed.

(** The calls made for one lead, for each value of [what]. *)
Lemma lead_values_modes (h : gmap loc (@obj Data)) (energy : Energy)
    (args : Args) (params : Params) (nr : nat) (lead : loc) :
  values h "modes" energy args params nr lead
  = ([CallModes nr lead],
     (m <- lead_modes foreign_modes h lead energy args params ;;
      Ok (m, None))%res).
Proof.
  unfold lead_values.
  change (what_in "modes" ["modes"; "all"]) with true.
  change (what_in "modes" ["selfenergy"; "all"]) with false.
  cbn. now destruct (lead_modes foreign_modes h lead energy args params).
Qed.

Lemma lead_values_selfenergy (h : gmap loc (@obj Data)) (energy : Energy)
    (args : Args) (params : Params) (nr : nat) (lead : loc) :
  values h "selfenergy" energy args params nr lead
  = ([CallSelfenergy nr lead],
     (σ <- lead_selfenergy foreign_selfenergy h lead energy args params ;;
      Ok (None, σ))%res).
Proof.
  unfold lead_values.
  change (what_in "selfenergy" ["modes"; "all"]) with false.
  change (what_in "selfenergy" ["selfenergy"; "all"]) with true.
  cbn.
  now destruct (lead_selfenergy foreign_selfenergy h lead energy args params).
Qed.

Lemma lead_values_all (h : gmap loc (@obj Data)) (energy : Energy)
    (args : Args) (params : Params) (nr : nat) (lead : loc) :
  values h "all" energy args params nr lead
  = match lead_modes foreign_modes h lead energy args params with
    | Raise err => ([CallModes nr lead], Raise err)
    | Ok (Some d) =>
        if data_truthy d
        then ([CallModes nr lead; CallModesSelfenergy nr d],
              (σ <- modes_selfenergy d ;; Ok (Some d, σ))%res)
        else ([CallModes nr lead; CallSelfenergy nr lead],
              (σ <- lead_selfenergy foreign_selfenergy h lead energy args
                                    params ;;
               Ok (Some d, σ))%res)
    | Ok None =>
        ([CallModes nr lead; CallSelfenergy nr lead],
         (σ <- lead_selfenergy foreign_selfenergy h lead energy args params ;;
          Ok (None, σ))%res)
    end.
Proof.
  unfold lead_values.
  change (what_in "all" ["modes"; "all"]) with true.
  change (what_in "all" ["selfenergy"; "all"]) with true.
  destruct (lead_modes foreign_modes h lead energy args params)
    as [[d|]|err]; cbn; [|  |reflexivity].
  - destruct (data_truthy d); cbn.
    + now destruct (modes_selfenergy d).
    + now destruct (lead_selfenergy foreign_selfenergy h lead energy args
                                    params).
  - now destruct (lead_selfenergy foreign_selfenergy h lead energy args
                                  params).
Qed.

(** The [selfenergy] method of a lead is called when [what] is
    ['selfenergy'], or after [modes] gave a falsy value. *)
Lemma lead_values_selfenergy_call (h : gmap loc (@obj Data)) (what : string)
    (energy : Energy) (args : Args) (params : Params) (nr nr' : nat)
    (lead lead' : loc) :
  what ∈ ["modes"; "selfenergy"; "all"] ->
  CallSelfenergy nr' lead'
    ∈ (values h what energy args params nr lead).1 ->
  what = "selfenergy"
  \/ exists m, lead_modes foreign_modes h lead energy args params = Ok m
               /\ truthy data_truthy m = false.
Proof.
  intros Hwhat. rewrite !elem_of_cons in Hwhat.
  destruct Hwhat as [->|[->|[->|Hwhat]]]; [| |  |inversion Hwhat].
  - rewrite lead_values_modes. cbn. intros Hin.
    apply list_elem_of_singleton in Hin. discriminate.
  - now left.
  - rewrite lead_values_all. intros Hin. right.
    destruct (lead_modes foreign_modes h lead energy args params)
      as [[d|]|err]; cbn in Hin.
    + destruct (data_truthy d) eqn:Hd; [|exists (Some d); auto].
      cbn in Hin. rewrite !elem_of_cons in Hin.
      destruct Hin as [Hin|[Hin|Hin]]; [discriminate..|inversion Hin].
    + exists None. auto.
    + apply list_elem_of_singleton in Hin. discriminate.
Qed.

Lemma chosen_all (count k : nat) : k < count -> chosen None count k = true.
Proof.
  intros Hk. unfold chosen, selected. apply bool_decide_eq_true_2.
  apply list_elem_of_fmap. exists k. split; [reflexivity|].
  apply list_elem_of_In, in_seq. lia.
Qed.

(** C5.  For a valid [what], [precalculate] leaves every object of the
    store as it was, the system and its list of leads included, also
    when it raises.  It returns when the values of every selected lead
    are computed, and then the result is a new system object whose
    attributes are those of the original (the same objects) except
    [leads], which is a new list with, for each lead, a new
    [PrecalculatedLead] when the lead is selected and the same lead
    object otherwise. *)
Theorem precalculate_shallow_copy (s : state) (self ll : loc)
    (attrs : gmap string loc) (items : list loc) (energy : Energy)
    (args : Args) (leads : option (list Z)) (what : string)
    (params : Params) :
  objects s !! self = Some (OSystem attrs) ->
  attrs !! "leads" = Some ll ->
  objects s !! ll = Some (OList items) ->
  Forall (fun lead => is_Some (objects s !! lead)) items ->
  what ∈ ["modes"; "selfenergy"; "all"] ->
  exists s' r,
    precalc self energy args leads what params s = (s', r)
    /\ (forall l o, objects s !! l = Some o -> objects s' !! l = Some o)
    /\ objects s' !! self = Some (OSystem attrs)
    /\ objects s' !! ll = Some (OList items)
    /\ ((forall k lead,
           items !! k = Some lead ->
           chosen leads (length items) k = true ->
           exists m σ,
             (values (objects s) what energy args params k lead).2
             = Ok (m, σ)
             /\ (m <> None \/ σ <> None)) ->
        exists res, r = Ok res)
    /\ (forall res, r = Ok res ->
          objects s !! res = None
          /\ exists attrs' nl new,
               objects s' !! res = Some (OSystem attrs')
               /\ (forall name, name <> "leads" ->
                                attrs' !! name = attrs !! name)
               /\ attrs' !! "leads" = Some nl
               /\ objects s !! nl = None
               /\ objects s' !! nl = Some (OList new)
               /\ length new = length items
               /\ forall k lead,
                    items !! k = Some lead ->
                    if chosen leads (length items) k
                    then exists x pl,
                           new !! k = Some x
                           /\ objects s !! x = None
                           /\ objects s' !! x = Some (OPrecalculatedLead pl)
                    else new !! k = Some lead).
Proof.
  intros Hself Hleads Hll Hclosed Hwhat.
  destruct (precalculate_spec s self ll attrs items energy args leads what
              params Hself Hleads Hll Hclosed Hwhat)
    as (s' & r & evs & Hrun & _ & Hframe & _ & Hdone & Hcompl).
  exists s', r. split; [exact Hrun|]. split; [exact Hframe|].
  split; [now apply Hframe|]. split; [now apply Hframe|].
  split; [exact Hcompl|].
  intros res Hres.
  destruct (Hdone res Hres) as (Hnew & nl & new & H1 & H2 & H3 & H4 & H5).
  split; [exact Hnew|].
  exists (<["leads" := nl]> attrs), nl, new.
  split; [exact H1|].
  split; [intros name Hname; now apply lookup_insert_ne|].
  split; [apply lookup_insert_eq|].
  split; [exact H2|]. split; [exact H3|]. split; [exact H4|].
  intros k lead Hk. specialize (H5 k lead Hk).
  destruct (chosen leads (length items) k); [|exact H5].
  destruct H5 as (x & pl & Hx1 & Hx2 & Hx3 & _). eauto.
Qed.

End PrecalculateFacts.

(** The scattering region satisfies the assumptions on the store. *)
Lemma region_leads_exist :
  Forall (fun lead => is_Some (scattering_region !! lead))
         [4%positive; 5%positive].
Proof. repeat constructor; eexists; reflexivity. Defined.

Lemma all_is_valid : "all" ∈ ["modes"; "selfenergy"; "all"].
Proof. repeat constructor. Defined.

Lemma region_values_computed (k : nat) (lead : loc) :
  [4%positive; 5%positive] !! k = Some lead ->
  chosen (Some [1%Z]) 2 k = true ->
  exists m σ,
    (lead_values region_modes region_selfenergy region_modes_selfenergy
                 (fun _ => true) scattering_region "all" 0%Z tt tt k lead).2
    = Ok (m, σ)
    /\ (m <> None \/ σ <> None).
Proof.
  destruct k as [|[|k]]; intros Hk Hchosen.
  - discriminate Hchosen.
  - injection Hk as <-. exists (Some 15), (Some 115).
    split; [reflexivity|]. left. discriminate.
  - discriminate Hk.
Defined.

Lemma region_modes_truthy (lead : loc) (m : option nat) :
  lead ∈ [4%positive; 5%positive] ->
  lead_modes region_modes scattering_region lead 0%Z tt tt = Ok m ->
  truthy (fun _ => true) m = true.
Proof.
  intros _ Hm. destruct m as [d|]; [reflexivity|].
  unfold lead_modes, region_modes in Hm.
  destruct (scattering_region !! lead) as [[| |p|]|]; try discriminate Hm.
  unfold PrecalculatedLead_modes, deprecate_args in Hm.
  destruct (_modes p); discriminate Hm.
Defined.

(** Precalculating lead 1 of the scattering region returns a new system
    and leaves the region as it was. *)
Lemma precalculate_shallow_copy_witness :
  scattering_region !! 1%positive
  = Some (OSystem {[ "graph" := 2%positive; "leads" := 3%positive ]})
  /\ ({[ "graph" := 2%positive; "leads" := 3%positive ]} : gmap string loc)
     !! "leads" = Some 3%positive
  /\ scattering_region !! 3%positive = Some (OList [4%positive; 5%positive])
  /\ Forall (fun lead => is_Some (scattering_region !! lead))
            [4%positive; 5%positive]
  /\ "all" ∈ ["modes"; "selfenergy"; "all"]
  /\ exists s' res,
       region_precalculate (Some [1%Z]) "all" = (s', Ok res)
       /\ scattering_region !! res = None
       /\ objects s' !! 1%positive = scattering_region !! 1%positive
       /\ objects s' !! 3%positive = scattering_region !! 3%positive.
Proof.
  split; [reflexivity|]. split; [reflexivity|]. split; [reflexivity|].
  split; [exact region_leads_exist|]. split; [exact all_is_valid|].
  destruct (precalculate_shallow_copy
              region_modes region_selfenergy region_modes_selfenergy
              (fun _ => true) (mkState scattering_region [])
              1%positive 3%positive
              {[ "graph" := 2%positive; "leads" := 3%positive ]}
              [4%positive; 5%positive] 0%Z tt (Some [1%Z]) "all" tt
              eq_refl eq_refl eq_refl region_leads_exist all_is_valid)
    as (s' & r & Hrun & _ & Hself & Hll & Hcompl & Hdone).
  destruct (Hcompl region_values_computed) as [res ->].
  exists s', res. split; [exact Hrun|].
  split; [exact (proj1 (Hdone res eq_refl))|].
  split; [exact Hself|exact Hll].
Defined.


(** The run of the witnesses, computed. *)
Example region_precalculate_all :
  let '(s', r) := region_precalculate (Some [1%Z]) "all" in
  r = Ok 6%positive
  /\ trace s' = [CallModes 1 5%positive; CallModesSelfenergy 1 15]
  /\ objects s' !! 7%positive = Some (OList [4%positive; 8%positive])
  /\ objects s' !! 8%positive
     = Some (OPrecalculatedLead (mkPrecalculatedLead (Some 15) (Some 115) ∅)).
Proof. vm_compute. repeat split. Qed.

(** A lead whose [modes] gives [None] has its [selfenergy] method
    called with [what = 'all']: the assumption on [modes] is needed. *)
Example falsy_modes_call_selfenergy :
  (lead_values (fun _ _ _ _ => Ok None) region_selfenergy
               region_modes_selfenergy (fun _ => true)
               scattering_region "all" 0%Z tt tt 0 4%positive).1
  = [CallModes 0 4%positive; CallSelfenergy 0 4%positive].
Proof. reflexivity. Qed.

(** ** Further properties of symmetries *)

(** X1.  For a site, [in_fd] answers [True] exactly when every
    coordinate of [which(site)] is zero. *)
Theorem in_fd_site_identity `{S : Symmetry} (s : Site) (ds : list Z) :
  which (ASite s) = Ok (Elem ds) ->
  exists b,
    in_fd (ASite s) = Ok (FdBool b)
    /\ (b = true <-> Forall (fun d => d = 0%Z) ds).
Proof.
  intros Hw. eexists. split; [apply (in_fd_site _ _ Hw)|].
  rewrite forallb_forall, Forall_forall. split; intros H d Hd.
  - apply Z.eqb_eq, H. now apply list_elem_of_In.
  - apply Z.eqb_eq, H. now apply list_elem_of_In.
Qed.

Lemma in_fd_site_identity_witness :
  @which (Chain 2) (ASite (mkSite chain_family [1%Z])) = Ok (Elem [0%Z])
  /\ exists b,
       @in_fd (Chain 2) (ASite (mkSite chain_family [1%Z])) = Ok (FdBool b)
       /\ (b = true <-> Forall (fun d => d = 0%Z) [0%Z]).
Proof.
  split; [reflexivity|].
  exact (@in_fd_site_identity (Chain 2) (mkSite chain_family [1%Z]) [0%Z]
                              eq_refl).
Defined.


(** ** Site families *)

(** X3.  [!=] on site families is the negation of [==] for every
    operand, also one without [canonical_repr]; two families are equal
    exactly when their canonical representations are, whatever their
    names and numbers of orbitals; and equal families have equal
    hashes. *)
Theorem SiteFamily_eq_ne_hash (hash : string -> Z) (self : SiteFamily)
    (other : operand) :
  SiteFamily_ne self other = negb (SiteFamily_eq self other)
  /\ SiteFamily_eq self (AFamily self) = true
  /\ (forall o : SiteFamily,
        SiteFamily_eq self (AFamily o) = true
        <-> canonical_repr self = canonical_repr o)
  /\ (forall o : SiteFamily,
        SiteFamily_eq self (AFamily o) = true ->
        SiteFamily_eq o (AFamily self) = true
        /\ SiteFamily_hash hash self = SiteFamily_hash hash o).
Proof.
  split; [now destruct other|].
  split; [apply String.eqb_refl|].
  split.
  - intros o. apply String.eqb_eq.
  - intros o Heq. apply String.eqb_eq in Heq. unfold SiteFamily_hash.
    cbn. rewrite Heq. split; [apply String.eqb_refl|reflexivity].
Qed.

Lemma ltb_compare (s1 s2 : string) :
  String.ltb s1 s2 = true <-> String.compare s1 s2 = Lt.
Proof.
  unfold String.ltb. destruct (String.compare s1 s2); split;
    congruence.
Qed.

(** X4.  [<] on site families is a strict total order on canonical
    representations: of [f < g], [f == g] and [g < f] exactly one
    holds, and [<] is transitive; comparing with an object that has no
    [canonical_repr] raises. *)
Theorem SiteFamily_lt_total_order (f g h : SiteFamily) :
  (SiteFamily_lt f (AFamily g) = Ok true
   /\ SiteFamily_eq f (AFamily g) = false
   /\ SiteFamily_lt g (AFamily f) = Ok false
   \/ SiteFamily_lt f (AFamily g) = Ok false
      /\ SiteFamily_eq f (AFamily g) = true
      /\ SiteFamily_lt g (AFamily f) = Ok false
   \/ SiteFamily_lt f (AFamily g) = Ok false
      /\ SiteFamily_eq f (AFamily g) = false
      /\ SiteFamily_lt g (AFamily f) = Ok true)
  /\ (SiteFamily_lt f (AFamily g) = Ok true ->
      SiteFamily_lt g (AFamily h) = Ok true ->
      SiteFamily_lt f (AFamily h) = Ok true)
  /\ is_ok (SiteFamily_lt f NoCanonicalRepr) = false.
Proof.
  unfold SiteFamily_lt, SiteFamily_eq.
  set (a := canonical_repr f). set (b := canonical_repr g).
  set (c := canonical_repr h).
  split; [|split; [|reflexivity]].
  - unfold String.ltb. rewrite (String.compare_antisym b a).
    destruct (String.compare a b) eqn:Hcmp; cbn.
    + apply String.compare_eq_iff in Hcmp. rewrite Hcmp, String.eqb_refl.
      auto.
    + left. split; [reflexivity|]. split; [|reflexivity].
      apply String.eqb_neq. intros Heq. rewrite Heq in Hcmp.
      pose proof (String.compare_antisym b b) as Hanti.
      rewrite Hcmp in Hanti. discriminate.
    + right. right. split; [reflexivity|]. split; [|reflexivity].
      apply String.eqb_neq. intros Heq. rewrite Heq in Hcmp.
      pose proof (String.compare_antisym b b) as Hanti.
      rewrite Hcmp in Hanti. discriminate.
  - intros [= H1] [= H2]. f_equal.
    apply ltb_compare in H1, H2. apply ltb_compare.
    apply OrderedTypeEx.String_as_OT.cmp_lt.
    eapply OrderedTypeEx.String_as_OT.lt_trans;
      apply OrderedTypeEx.String_as_OT.cmp_lt; eassumption.
Qed.

(** ** Sites and site arrays *)

Lemma getitem_lookup {A} (l : list A) (i : nat) (a : A) :
  l !! i = Some a -> getitem l (Z.of_nat i) = Item a.
Proof.
  intros Hi. unfold getitem.
  destruct (Z.of_nat i <? 0)%Z eqn:Hneg; [apply Z.ltb_lt in Hneg; lia|].
  rewrite Hneg, Nat2Z.id, Hi. reflexivity.
Qed.

Lemma comprehension_ok_Forall2 {A B} (f : A -> result B) (l : list A)
    (ys : list B) :
  comprehension f l = Ok ys <-> Forall2 (fun x y => f x = Ok y) l ys.
Proof.
  revert ys. induction l as [|x l IH]; intros ys; simpl.
  - split; [intros [= <-]; constructor|]. intros H. now inversion H.
  - split.
    + destruct (f x) as [y|e] eqn:Hfx; simpl; [|discriminate].
      destruct (comprehension f l) as [ys'|e] eqn:Hl; simpl; [|discriminate].
      intros [= <-]. constructor; [exact Hfx|]. now apply IH.
    + intros H. inversion H as [|? y ? ys' Hfx Hrest]; subst.
      rewrite Hfx. apply IH in Hrest. rewrite Hrest. reflexivity.
Qed.

Section SiteConstructionFacts.
Variable normalize_tag : SiteFamily -> Tag -> result Tag.
Variable repr_tag : Tag -> string.
Variable repr_tags : list Tag -> string.


Lemma Site_new_ok (fam : SiteFamily) (t : Tag) :
  is_ok (Site_new normalize_tag repr_tag fam t false)
  = is_ok (normalize_tag fam t).
Proof. unfold Site_new. now destruct (normalize_tag fam t). Qed.

Lemma comprehension_is_ok {A B} (f : A -> result B) (l : list A) :
  is_ok (comprehension f l) = true
  <-> Forall (fun x => is_ok (f x) = true) l.
Proof.
  induction l as [|x l IH]; simpl.
  - split; [constructor|reflexivity].
  - rewrite Forall_cons, <- IH.
    destruct (f x); simpl; [|intuition discriminate].
    destruct (comprehension f l); simpl; intuition.
Qed.


(** X7.  Under the same assumptions the slice [a[start:stop]] of a site
    array is the array of the same family with the tags [start] to
    [stop - 1] of [a]; taking it never raises. *)
Theorem SiteArray_getitem_slice_tags (fam : SiteFamily) (tags0 : list Tag)
    (a : SiteArray) (start stop : nat) :
  (forall t t', normalize_tag fam t = Ok t' ->
                normalize_tag fam t' = Ok t') ->
  SiteArray_init normalize_tag repr_tags fam tags0 = Ok a ->
  SiteArray_getitem_slice normalize_tag repr_tags a start stop
  = Ok (mkSiteArray fam (take (stop - start) (drop start (tags a)))).
Proof.
  intros Hidem. unfold SiteArray_getitem_slice, SiteArray_init,
    SiteFamily_normalize_tags.
  destruct (comprehension (normalize_tag fam) tags0) as [tags'|e] eqn:Hc;
    [|discriminate].
  intros [= <-]. cbn [tags family].
  apply comprehension_ok_Forall2 in Hc.
  assert (Hnorm : Forall (fun t' => normalize_tag fam t' = Ok t') tags').
  { apply Forall_forall. intros t' Hin.
    apply list_elem_of_lookup in Hin as [i Hi].
    destruct (Forall2_lookup_r _ _ _ _ _ Hc Hi) as (t & _ & Ht).
    exact (Hidem _ _ Ht). }
  assert (Hsub : Forall (fun t' => normalize_tag fam t' = Ok t')
                        (take (stop - start) (drop start tags'))).
  { apply Forall_take, Forall_drop, Hnorm. }
  assert (Hok : comprehension (normalize_tag fam)
                  (take (stop - start) (drop start tags'))
                = Ok (take (stop - start) (drop start tags'))).
  { apply comprehension_ok_Forall2.
    induction Hsub; constructor; auto. }
  now rewrite Hok.
Qed.
End SiteConstructionFacts.

Lemma chain_normalize_tag_idempotent (fam : SiteFamily) (t t' : Tag) :
  chain_normalize_tag fam t = Ok t' -> chain_normalize_tag fam t' = Ok t'.
Proof.
  destruct t as [|x [|y t]]; try discriminate. now intros [= <-].
Defined.

(** The middle of a chain of four sites. *)
Lemma SiteArray_getitem_slice_tags_witness :
  (forall t t', chain_normalize_tag chain_family t = Ok t' ->
                chain_normalize_tag chain_family t' = Ok t')
  /\ SiteArray_init chain_normalize_tag chain_repr_tags chain_family
                    [[0%Z]; [1%Z]; [2%Z]; [5%Z]] = Ok chain_sites
  /\ SiteArray_getitem_slice chain_normalize_tag chain_repr_tags
                             chain_sites 1 3
     = Ok (mkSiteArray chain_family [[1%Z]; [2%Z]]).
Proof.
  split; [exact (chain_normalize_tag_idempotent chain_family)|].
  split; [reflexivity|].
  exact (SiteArray_getitem_slice_tags chain_normalize_tag chain_repr_tags
           chain_family [[0%Z]; [1%Z]; [2%Z]; [5%Z]] chain_sites 1 3
           (chain_normalize_tag_idempotent chain_family) eq_refl).
Defined.

(** A tag that the family refuses stops the construction of the site
    and of the site array. *)
Example chain_refuses_pairs :
  is_ok (Site_new chain_normalize_tag chain_repr_tag chain_family
                  [1%Z; 2%Z] false) = false
  /\ is_ok (SiteArray_init chain_normalize_tag chain_repr_tags chain_family
                           [[0%Z]; [1%Z; 2%Z]]) = false
  /\ Site_new chain_normalize_tag chain_repr_tag chain_family
              [1%Z; 2%Z] true
     = Ok (mkSite chain_family [1%Z; 2%Z]).
Proof. repeat split. Qed.

(** ** Consistency of site ranges *)

Lemma SiteFamily_init_norbs (cr nm : string) (n : Z) (fam : SiteFamily) :
  SiteFamily_init cr nm (Some n) = Ok fam ->
  norbs fam = Some n /\ (0 < n)%Z.
Proof.
  unfold SiteFamily_init. destruct (n <=? 0)%Z eqn:Hn; [discriminate|].
  intros [= <-]. split; [reflexivity|]. apply Z.leb_gt in Hn. lia.
Qed.

Lemma foldr_add_app (l1 l2 : list Z) :
  foldr Z.add 0%Z (l1 ++ l2) = (foldr Z.add 0 l1 + foldr Z.add 0 l2)%Z.
Proof. induction l1 as [|x l1 IH]; simpl; lia. Qed.

(** The rows of [site_ranges], for site arrays with [norbs]. *)
Lemma site_ranges_lookup (self : VectorizedSystem) :
  Forall (fun arr => is_Some (norbs (family arr))) (site_arrays self) ->
  exists rows,
    site_ranges self = Ok rows
    /\ forall k,
         k <= length (site_arrays self) ->
         rows !! k
         = Some [total_sites (take k (site_arrays self));
                 default 0%Z (site_arrays self !! k ≫= fun arr =>
                                norbs (family arr));
                 total_orbitals (take k (site_arrays self))].
Proof.
  intros Hnorbs. unfold site_ranges.
  rewrite (comprehension_array_orbitals _ Hnorbs). cbn [rbind].
  eexists. split; [reflexivity|]. intros k Hk.
  apply transpose_three_lookup.
  - rewrite cumsum_zero_lookup by (rewrite length_map; lia).
    unfold total_sites. now rewrite <- fmap_take.
  - rewrite list_lookup_fmap.
    destruct (site_arrays self !! k) as [arr|] eqn:Harr.
    + rewrite lookup_app_l
        by (rewrite length_map; eapply lookup_lt_Some; eauto).
      now rewrite list_lookup_fmap, Harr.
    + apply lookup_ge_None in Harr.
      rewrite lookup_app_r by (rewrite length_map; lia).
      rewrite length_map. replace (k - length (site_arrays self)) with 0
        by lia. reflexivity.
  - rewrite cumsum_zero_lookup by (rewrite length_map; lia).
    unfold total_orbitals. now rewrite <- fmap_take.
Qed.


Lemma ribbon_families_constructed :
  Forall (fun arr => exists cr nm n,
            SiteFamily_init cr nm (Some n) = Ok (family arr))
         (site_arrays ribbon).
Proof.
  repeat constructor.
  - exists "chain", "", 1%Z. reflexivity.
  - exists "b", "", 3%Z. reflexivity.
Defined.


(** ** The shape of normalized blocks *)

Lemma concat_replicate_length {A} (n : nat) (l : list A) :
  length (concat (replicate n l)) = n * length l.
Proof.
  induction n as [|n IH]; simpl; [reflexivity|].
  rewrite length_app, IH. reflexivity.
Qed.

(** X9.  Whatever [_normalize_matrix_blocks] returns has exactly the
    expected shape [(N, P, Q)] and holds [N * P * Q] entries. *)
Theorem normalize_matrix_blocks_shape {C : Type} (blocks : arraylike C)
    (N P Q : nat) (cf : pyfunc) (a : ndarray C) :
  _normalize_matrix_blocks blocks (N, P, Q) cf = Ok a ->
  shape a = [N; P; Q] /\ length (flat a) = N * P * Q.
Proof.
  unfold _normalize_matrix_blocks.
  destruct (asarray blocks) as [a0|e] eqn:Ha0; [|destruct e; discriminate].
  pose proof (asarray_size _ _ Ha0) as Hsize.
  assert (Hcheck : forall (b : ndarray C) (wb : bool) (msg : string),
    (if bool_decide (shape b ≠ [N; P; Q])
     then Raise (ValueError msg) else Ok b) = Ok a ->
    a = b /\ shape b = [N; P; Q]).
  { intros b wb msg. destruct (decide (shape b = [N; P; Q])) as [Heq|Hne].
    - rewrite bool_decide_eq_false_2 by auto. now intros [= <-].
    - rewrite bool_decide_eq_true_2 by exact Hne. discriminate. }
  cbn [tuple3 fst].
  destruct (shape a0) as [|d0 [|d1 [|d2 rest]]] eqn:Hs; cbn [length];
    intros Hrun;
    match type of Hrun with
    | (if _ then Raise (ValueError ?m) else Ok ?b) = _ =>
        destruct (Hcheck b true m Hrun) as [-> Hshape]
    end; (split; [exact Hshape|]).
  - unfold tile_n11 in *. rewrite Hs in *. cbn in Hshape |- *.
    injection Hshape as _ <- <-.
    rewrite concat_replicate_length, Hsize. cbn. lia.
  - cbn in Hshape |- *. injection Hshape as <- <- <-. lia.
  - unfold tile_n11 in *. rewrite Hs in *. cbn in Hshape |- *.
    injection Hshape as _ <- <-.
    rewrite concat_replicate_length, Hsize. cbn. lia.
  - rewrite Hs in Hshape. injection Hshape as -> -> -> ->.
    rewrite Hsize. cbn. lia.
Qed.

Lemma normalize_matrix_blocks_shape_witness :
  _normalize_matrix_blocks (Seq [Scalar 1%Z; Scalar 2%Z; Scalar 3%Z])
                           (3, 1, 1) NotCallable
  = Ok (mkArray [3; 1; 1] [1%Z; 2%Z; 3%Z])
  /\ shape (mkArray [3; 1; 1] [1%Z; 2%Z; 3%Z]) = [3; 1; 1]
  /\ length (flat (mkArray [3; 1; 1] [1%Z; 2%Z; 3%Z])) = 3 * 1 * 1.
Proof.
  split; [reflexivity|].
  exact (normalize_matrix_blocks_shape
           (Seq [Scalar 1%Z; Scalar 2%Z; Scalar 3%Z]) 3 1 1 NotCallable
           (mkArray [3; 1; 1] [1%Z; 2%Z; 3%Z]) eq_refl).
Defined.

(** ** Self-energy and modes of infinite systems *)

Section InfiniteFacts.
Context {C Args Params Op Modes SelfEnergy : Type}.
Variable csub : C -> C -> C.
Variable nonzero : C -> bool.
Variable validate : descriptor Op -> ndarray C -> result (list string).
Variable physics_modes :
  ndarray C -> ndarray C -> descriptor Op -> result Modes.
Variable physics_selfenergy : ndarray C -> ndarray C -> result SelfEnergy.

(** X10.  For a square cell Hamiltonian with [n] rows, [selfenergy]
    hands the self-energy routine the inter-cell hopping as it is and a
    matrix [H] of the same shape that differs from the cell Hamiltonian
    in the diagonal entries only, from which the energy is subtracted;
    an error of the hopping is raised instead. *)
Theorem selfenergy_shifts_diagonal `{M : @InfiniteSystemMixin C Args Params Op}
    (energy : C) (args : Args) (params : Params) (ham : ndarray C)
    (n : nat) :
  self_cell_hamiltonian args params = Ok ham ->
  shape ham = [n; n] ->
  exists H,
    selfenergy csub physics_selfenergy energy args params
    = (hop <- self_inter_cell_hopping args params ;;
       physics_selfenergy H hop)%res
    /\ shape H = [n; n]
    /\ length (flat H) = length (flat ham)
    /\ forall i j x,
         i < n -> j < n -> flat ham !! (i * n + j) = Some x ->
         flat H !! (i * n + j)
         = Some (if decide (i = j) then csub x energy else x).
Proof.
  intros Hham Hshape. exists (sub_strided csub (n + 1) energy ham).
  split.
  { unfold selfenergy, deprecate_args. rewrite Hham. cbn [rbind].
    now rewrite Hshape, Nat.eqb_refl. }
  split; [exact Hshape|]. split; [apply length_imap|].
  intros i j x Hi Hj Hx.
  apply (sub_strided_diagonal csub n energy ham i j x Hi Hj Hx).
Qed.

(** X11.  A cell Hamiltonian that is not a square matrix makes
    [selfenergy] fail its assertion, whatever the hopping and the
    self-energy routine would give. *)
Theorem selfenergy_requires_square `{M : @InfiniteSystemMixin C Args Params Op}
    (energy : C) (args : Args) (params : Params) (ham : ndarray C) :
  self_cell_hamiltonian args params = Ok ham ->
  (forall n, shape ham <> [n; n]) ->
  selfenergy csub physics_selfenergy energy args params
  = Raise (AssertionError "").
Proof.
  intros Hham Hshape. unfold selfenergy, deprecate_args.
  rewrite Hham. cbn [rbind].
  destruct (shape ham) as [|n [|m [|k rest]]] eqn:Hs; try reflexivity.
  destruct (n =? m)%nat eqn:Hnm; [|reflexivity].
  apply Nat.eqb_eq in Hnm. subst m. now destruct (Hshape n).
Qed.

(** X12.  When the validator reports names from its vocabulary,
    [modes] warns once for each distinct name reported for the cell
    Hamiltonian or the hopping; the descriptor it hands to the mode
    solver has [projectors], [time_reversal] or [chiral] set to [None]
    when "Conservation law", "Time reversal" or "Chiral" is among them,
    and [particle_hole] and [chiral] set to [None] when the energy is
    not zero; the solver gets the hopping as it is and the cell
    Hamiltonian with the energy subtracted along the stride
    [n + 1]. *)
Theorem modes_ignores_reported_symmetries
    `{M : @InfiniteSystemMixin C Args Params Op}
    (energy : C) (args : Args) (params : Params) (ham hop : ndarray C)
    (symmetries : descriptor Op) (b1 b2 : list string) (n : nat) :
  self_cell_hamiltonian args params = Ok ham ->
  self_inter_cell_hopping args params = Ok hop ->
  self_discrete_symmetry args params = Ok symmetries ->
  validate symmetries ham = Ok b1 ->
  validate symmetries hop = Ok b2 ->
  Forall (fun name => is_Some (attribute_names !! name)) (b1 ++ b2) ->
  shape ham = [n; n] ->
  exists broken symmetries',
    modes csub nonzero validate physics_modes energy args params
    = (map broken_warning broken,
       physics_modes (sub_strided csub (n + 1) energy ham) hop symmetries')
    /\ NoDup broken
    /\ (forall name, name ∈ broken <-> name ∈ (b1 ++ b2)%list)
    /\ (nonzero energy = true ->
        symmetries' !! "particle_hole" = Some None
        /\ symmetries' !! "chiral" = Some None)
    /\ ("Conservation law" ∈ (b1 ++ b2)%list ->
        symmetries' !! "projectors" = Some None)
    /\ ("Time reversal" ∈ (b1 ++ b2)%list ->
        symmetries' !! "time_reversal" = Some None)
    /\ ("Chiral" ∈ (b1 ++ b2)%list ->
        symmetries' !! "chiral" = Some None).
Proof.
  intros Hham Hhop Hsym Hb1 Hb2 Hvoc Hshape.
  destruct (modes_delegates csub nonzero validate physics_modes energy args
              params ham hop symmetries b1 b2 n Hham Hhop Hsym Hb1 Hb2
              Hvoc Hshape)
    as (broken & symmetries' & H1 & H2 & H3 & H4 & H5 & H6 & H7 & _).
  exists broken, symmetries'. auto 10.
Qed.

(** A name outside the vocabulary stops the loop over the broken
    symmetries with an [AssertionError], after its warning. *)
Lemma ignore_broken_unknown (names : list string) :
  forall symmetries : descriptor Op,
  Exists (fun name => attribute_names !! name = None) names ->
  exists ws,
    ignore_broken names symmetries
    = (ws, Raise (AssertionError "Inconsistent naming of symmetries"))
    /\ ws <> [].
Proof.
  induction names as [|name names IH]; intros symmetries Hex.
  - inversion Hex.
  - cbn [ignore_broken]. unfold wbind, warn, emit.
    destruct (attribute_names !! name) as [attr|] eqn:Hattr.
    + apply Exists_cons in Hex as [Hex|Hex]; [congruence|].
      destruct (IH (<[attr := None]> symmetries) Hex) as (ws & Hrun & _).
      rewrite Hrun. eexists. split; [reflexivity|]. discriminate.
    + eexists. split; [reflexivity|]. discriminate.
Qed.

(** X13.  When the validator reports a name that [attribute_names]
    lacks, [modes] fails its assertion after at least one warning, and
    the mode solver is not run. *)
Theorem modes_unknown_symmetry_name
    `{M : @InfiniteSystemMixin C Args Params Op}
    (energy : C) (args : Args) (params : Params) (ham hop : ndarray C)
    (symmetries : descriptor Op) (b1 b2 : list string) :
  self_cell_hamiltonian args params = Ok ham ->
  self_inter_cell_hopping args params = Ok hop ->
  self_discrete_symmetry args params = Ok symmetries ->
  validate symmetries ham = Ok b1 ->
  validate symmetries hop = Ok b2 ->
  Exists (fun name => attribute_names !! name = None) (b1 ++ b2) ->
  exists ws,
    modes csub nonzero validate physics_modes energy args params
    = (ws, Raise (AssertionError "Inconsistent naming of symmetries"))
    /\ ws <> [].
Proof.
  intros Hham Hhop Hsym Hb1 Hb2 Hex.
  set (broken := elements (list_to_set (b1 ++ b2)%list : gset string)).
  destruct (ignore_broken_unknown broken symmetries) as (ws & Hrun & Hws).
  { apply Exists_exists in Hex as (name & Hin & Hname).
    apply Exists_exists. exists name. split; [|exact Hname].
    unfold broken. now rewrite elem_of_elements, elem_of_list_to_set. }
  exists ws. split; [|exact Hws].
  unfold modes, deprecate_args.
  rewrite Hham, Hhop, Hsym. unfold wlift at 1 2 3. cbn [wbind].
  rewrite Hb1, Hb2. unfold wlift at 1 2. cbn [wbind].
  fold broken. rewrite Hrun. reflexivity.
Qed.
End InfiniteFacts.

(** The wire at energy 3. *)
Lemma selfenergy_shifts_diagonal_witness :
  @self_cell_hamiltonian _ _ _ _ (InfiniteSystem_mixin 0%Z wire) tt tt
  = Ok (mkArray [1; 1] [0%Z])
  /\ shape (mkArray [1; 1] [0%Z]) = [1; 1]
  /\ exists H,
       @selfenergy _ _ _ _ _ Z.sub echo_selfenergy
                   (InfiniteSystem_mixin 0%Z wire) 3%Z tt tt
       = (hop <- @self_inter_cell_hopping _ _ _ _
                   (InfiniteSystem_mixin 0%Z wire) tt tt ;;
          echo_selfenergy H hop)%res
       /\ shape H = [1; 1].
Proof.
  split; [reflexivity|]. split; [reflexivity|].
  destruct (@selfenergy_shifts_diagonal _ _ _ _ _ Z.sub echo_selfenergy
              (InfiniteSystem_mixin 0%Z wire) 3%Z tt tt
              (mkArray [1; 1] [0%Z]) 1 eq_refl eq_refl)
    as (H & Hrun & Hshape & _).
  exists H. split; [exact Hrun|exact Hshape].
Defined.

Lemma skew_not_square (n : nat) : [1; 2] <> [n; n].
Proof. intros Heq. injection Heq as H1 H2. congruence. Defined.

Lemma selfenergy_requires_square_witness :
  @self_cell_hamiltonian _ _ _ _ skew_mixin tt tt
  = Ok (mkArray [1; 2] [0%Z; 1%Z])
  /\ (forall n, shape (mkArray [1; 2] [0%Z; 1%Z]) <> [n; n])
  /\ @selfenergy _ _ _ _ _ Z.sub echo_selfenergy skew_mixin 3%Z tt tt
     = Raise (AssertionError "").
Proof.
  split; [reflexivity|]. split; [exact skew_not_square|].
  exact (@selfenergy_requires_square _ _ _ _ _ Z.sub echo_selfenergy
           skew_mixin 3%Z tt tt (mkArray [1; 2] [0%Z; 1%Z])
           eq_refl skew_not_square).
Defined.

Lemma particle_hole_in_vocabulary :
  Forall (fun name => is_Some (attribute_names !! name))
         ([] ++ ["Particle-hole"]).
Proof. repeat constructor. eexists. reflexivity. Defined.

Lemma modes_ignores_reported_symmetries_witness :
  @self_cell_hamiltonian _ _ _ _ (InfiniteSystem_mixin 0%Z wire) tt tt
  = Ok (mkArray [1; 1] [0%Z])
  /\ @self_inter_cell_hopping _ _ _ _ (InfiniteSystem_mixin 0%Z wire) tt tt
     = Ok (mkArray [1; 1] [1%Z])
  /\ @self_discrete_symmetry _ _ _ _ (InfiniteSystem_mixin 0%Z wire) tt tt
     = Ok (<["particle_hole" := Some 1%Z]> DiscreteSymmetry0)
  /\ wire_validate (<["particle_hole" := Some 1%Z]> DiscreteSymmetry0)
                   (mkArray [1; 1] [0%Z]) = Ok []
  /\ wire_validate (<["particle_hole" := Some 1%Z]> DiscreteSymmetry0)
                   (mkArray [1; 1] [1%Z]) = Ok ["Particle-hole"]
  /\ Forall (fun name => is_Some (attribute_names !! name))
            ([] ++ ["Particle-hole"])
  /\ shape (mkArray [1; 1] [0%Z]) = [1; 1]
  /\ exists broken symmetries',
       wire_modes 3
       = (map broken_warning broken,
          echo_modes (sub_strided Z.sub (1 + 1) 3%Z (mkArray [1; 1] [0%Z]))
                     (mkArray [1; 1] [1%Z]) symmetries')
       /\ symmetries' !! "particle_hole" = Some None
       /\ symmetries' !! "chiral" = Some None.
Proof.
  split; [reflexivity|]. split; [reflexivity|]. split; [reflexivity|].
  split; [reflexivity|]. split; [reflexivity|].
  split; [exact particle_hole_in_vocabulary|]. split; [reflexivity|].
  destruct (@modes_ignores_reported_symmetries _ _ _ _ _
              Z.sub (fun e => negb (e =? 0)%Z) wire_validate echo_modes
              (InfiniteSystem_mixin 0%Z wire) 3%Z tt tt
              (mkArray [1; 1] [0%Z]) (mkArray [1; 1] [1%Z])
              (<["particle_hole" := Some 1%Z]> DiscreteSymmetry0)
              [] ["Particle-hole"] 1
              eq_refl eq_refl eq_refl eq_refl eq_refl
              particle_hole_in_vocabulary eq_refl)
    as (broken & symmetries' & Hrun & _ & _ & Henergy & _).
  exists broken, symmetries'. split; [exact Hrun|].
  exact (Henergy eq_refl).
Defined.

Lemma mirror_not_in_vocabulary :
  Exists (fun name => attribute_names !! name = None)
         (["Mirror"] ++ ["Mirror"]).
Proof. constructor. reflexivity. Defined.

Lemma modes_unknown_symmetry_name_witness :
  @self_cell_hamiltonian _ _ _ _ (InfiniteSystem_mixin 0%Z wire) tt tt
  = Ok (mkArray [1; 1] [0%Z])
  /\ @self_inter_cell_hopping _ _ _ _ (InfiniteSystem_mixin 0%Z wire) tt tt
     = Ok (mkArray [1; 1] [1%Z])
  /\ @self_discrete_symmetry _ _ _ _ (InfiniteSystem_mixin 0%Z wire) tt tt
     = Ok (<["particle_hole" := Some 1%Z]> DiscreteSymmetry0)
  /\ Exists (fun name => attribute_names !! name = None)
            (["Mirror"] ++ ["Mirror"])
  /\ exists ws,
       @modes _ _ _ _ Z.sub (fun e => negb (e =? 0)%Z) _
              mirror_validate echo_modes (InfiniteSystem_mixin 0%Z wire)
              0%Z tt tt
       = (ws, Raise (AssertionError "Inconsistent naming of symmetries"))
       /\ ws <> [].
Proof.
  split; [reflexivity|]. split; [reflexivity|]. split; [reflexivity|].
  split; [exact mirror_not_in_vocabulary|].
  exact (@modes_unknown_symmetry_name _ _ _ _ _
           Z.sub (fun e => negb (e =? 0)%Z) mirror_validate echo_modes
           (InfiniteSystem_mixin 0%Z wire) 0%Z tt tt
           (mkArray [1; 1] [0%Z]) (mkArray [1; 1] [1%Z])
           (<["particle_hole" := Some 1%Z]> DiscreteSymmetry0)
           ["Mirror"] ["Mirror"]
           eq_refl eq_refl eq_refl eq_refl eq_refl
           mirror_not_in_vocabulary).
Defined.

(** ** Further properties of [precalculate] *)

Section PrecalculateMore.
Context {Data Energy Args Params : Type}.
Variable foreign_modes :
  loc -> Energy -> Args -> Params -> result (option Data).
Variable foreign_selfenergy :
  loc -> Energy -> Args -> Params -> result (option Data).
Variable modes_selfenergy : Data -> result (option Data).
Variable data_truthy : Data -> bool.

Local Abbreviation values :=
  (lead_values foreign_modes foreign_selfenergy modes_selfenergy data_truthy).
Local Abbreviation loop :=
  (precalculate_loop foreign_modes foreign_selfenergy modes_selfenergy
                     data_truthy).
Local Abbreviation precalc :=
  (precalculate foreign_modes foreign_selfenergy modes_selfenergy
                data_truthy).

(** The calls for lead number [k] carry the number [k]. *)
Lemma lead_values_event_nr (h : gmap loc (@obj Data)) (what : string)
    (energy : Energy) (args : Args) (params : Params) (k : nat)
    (lead : loc) (ev : event) :
  what ∈ ["modes"; "selfenergy"; "all"] ->
  ev ∈ (values h what energy args params k lead).1 ->
  event_nr ev = k.
Proof.
  intros Hwhat. rewrite !elem_of_cons in Hwhat.
  destruct Hwhat as [->|[->|[->|Hwhat]]]; [| |  |inversion Hwhat].
  - rewrite lead_values_modes. cbn. intros Hin.
    apply list_elem_of_singleton in Hin. now subst.
  - rewrite lead_values_selfenergy. cbn. intros Hin.
    apply list_elem_of_singleton in Hin. now subst.
  - rewrite lead_values_all.
    destruct (lead_modes foreign_modes h lead energy args params)
      as [[d|]|err]; [destruct (data_truthy d)| |]; cbn;
      rewrite ?elem_of_cons; intros Hin;
      repeat (destruct Hin as [->|Hin]; [reflexivity|]);
      inversion Hin.
Qed.

(** X14.  [precalculate] makes calls on behalf of selected leads only:
    every call it logs carries the number of a lead of the system that
    [leads] selects. *)
Theorem precalculate_calls_selected_only (s : state) (self ll : loc)
    (attrs : gmap string loc) (items : list loc) (energy : Energy)
    (args : Args) (leads : option (list Z)) (what : string)
    (params : Params) :
  objects s !! self = Some (OSystem attrs) ->
  attrs !! "leads" = Some ll ->
  objects s !! ll = Some (OList items) ->
  Forall (fun lead => is_Some (objects s !! lead)) items ->
  what ∈ ["modes"; "selfenergy"; "all"] ->
  exists s' r evs,
    precalc self energy args leads what params s = (s', r)
    /\ trace s' = (trace s ++ evs)%list
    /\ forall ev,
         ev ∈ evs ->
         event_nr ev < length items
         /\ chosen leads (length items) (event_nr ev) = true.
Proof.
  intros Hself Hleads Hll Hclosed Hwhat.
  destruct (precalculate_spec foreign_modes foreign_selfenergy
              modes_selfenergy data_truthy s self ll attrs items energy
              args leads what params Hself Hleads Hll Hclosed Hwhat)
    as (s' & r & evs & Hrun & Htrace & _ & Hevs & _).
  exists s', r, evs. split; [exact Hrun|]. split; [exact Htrace|].
  intros ev Hev. destruct (Hevs ev Hev) as (k & lead & Hk & Hchosen & Hin).
  rewrite (lead_values_event_nr _ _ _ _ _ _ _ _ Hwhat Hin).
  split; [eapply lookup_lt_Some; eauto|exact Hchosen].
Qed.

(** X15.  When [leads] names no lead of the system (it is empty, or
    holds only negative numbers or numbers past the last lead),
    [precalculate] returns a copy whose new list of leads has exactly
    the entries of the original list, and makes no call. *)
Theorem precalculate_without_selection (s : state) (self ll : loc)
    (attrs : gmap string loc) (items : list loc) (energy : Energy)
    (args : Args) (leads : option (list Z)) (what : string)
    (params : Params) :
  objects s !! self = Some (OSystem attrs) ->
  attrs !! "leads" = Some ll ->
  objects s !! ll = Some (OList items) ->
  Forall (fun lead => is_Some (objects s !! lead)) items ->
  what ∈ ["modes"; "selfenergy"; "all"] ->
  (forall k, k < length items -> chosen leads (length items) k = false) ->
  exists s' res nl,
    precalc self energy args leads what params s = (s', Ok res)
    /\ trace s' = trace s
    /\ objects s !! res = None
    /\ objects s' !! res = Some (OSystem (<["leads" := nl]> attrs))
    /\ objects s !! nl = None
    /\ objects s' !! nl = Some (OList items).
Proof.
  intros Hself Hleads Hll Hclosed Hwhat Hnone.
  destruct (precalculate_spec foreign_modes foreign_selfenergy
              modes_selfenergy data_truthy s self ll attrs items energy
              args leads what params Hself Hleads Hll Hclosed Hwhat)
    as (s' & r & evs & Hrun & Htrace & _ & Hevs & Hdone & Hcompl).
  destruct Hcompl as [res ->].
  { intros k lead Hk Hchosen.
    rewrite Hnone in Hchosen by (eapply lookup_lt_Some; eauto).
    discriminate. }
  destruct (Hdone res eq_refl)
    as (Hres & nl & new & H1 & H2 & H3 & H4 & H5).
  exists s', res, nl. split; [exact Hrun|].
  split.
  { rewrite Htrace. destruct evs as [|ev evs]; [apply app_nil_r|].
    destruct (Hevs ev) as (k & lead & Hk & Hchosen & _); [left|].
    rewrite Hnone in Hchosen by (eapply lookup_lt_Some; eauto).
    discriminate. }
  split; [exact Hres|]. split; [exact H1|]. split; [exact H2|].
  rewrite H3. do 2 f_equal. apply list_eq. intros k.
  destruct (items !! k) as [lead|] eqn:Hk.
  - specialize (H5 k lead Hk).
    now rewrite Hnone in H5 by (eapply lookup_lt_Some; eauto).
  - apply lookup_ge_None. apply lookup_ge_None in Hk. lia.
Qed.

(** X16.  With [leads=None], when [precalculate] returns, every entry
    of the new list of leads is a [PrecalculatedLead] that did not
    exist before; the list has one entry per lead. *)
Theorem precalculate_all_leads (s : state) (self ll : loc)
    (attrs : gmap string loc) (items : list loc) (energy : Energy)
    (args : Args) (what : string) (params : Params) :
  objects s !! self = Some (OSystem attrs) ->
  attrs !! "leads" = Some ll ->
  objects s !! ll = Some (OList items) ->
  Forall (fun lead => is_Some (objects s !! lead)) items ->
  what ∈ ["modes"; "selfenergy"; "all"] ->
  exists s' r,
    precalc self energy args None what params s = (s', r)
    /\ forall res,
         r = Ok res ->
         exists nl new,
           objects s' !! res = Some (OSystem (<["leads" := nl]> attrs))
           /\ objects s' !! nl = Some (OList new)
           /\ length new = length items
           /\ forall k x,
                new !! k = Some x ->
                objects s !! x = None
                /\ exists pl, objects s' !! x = Some (OPrecalculatedLead pl).
Proof.
  intros Hself Hleads Hll Hclosed Hwhat.
  destruct (precalculate_spec foreign_modes foreign_selfenergy
              modes_selfenergy data_truthy s self ll attrs items energy
              args None what params Hself Hleads Hll Hclosed Hwhat)
    as (s' & r & evs & Hrun & _ & _ & _ & Hdone & _).
  exists s', r. split; [exact Hrun|]. intros res Hres.
  destruct (Hdone res Hres) as (_ & nl & new & H1 & _ & H3 & H4 & H5).
  exists nl, new. split; [exact H1|]. split; [exact H3|].
  split; [exact H4|]. intros k x Hx.
  pose proof (lookup_lt_Some _ _ _ Hx) as Hlt. rewrite H4 in Hlt.
  destruct (lookup_lt_is_Some_2 items k Hlt) as [lead Hk].
  specialize (H5 k lead Hk). rewrite (chosen_all _ _ Hlt) in H5.
  destruct H5 as (x' & pl & Hx' & Hfresh & Hpl & _).
  rewrite Hx in Hx'. injection Hx' as <-. eauto.
Qed.

(** The loop creates no [PrecalculatedLead] without a value. *)
Lemma precalculate_loop_valued (nl : loc) (leads : list Z) (what : string)
    (energy : Energy) (args : Args) (params : Params) (items : list loc) :
  forall (nr : nat) (s : state) (acc : list loc),
  objects s !! nl = Some (OList acc) ->
  forall x pl,
    objects (loop nl leads what energy args params nr items s).1 !! x
    = Some (OPrecalculatedLead pl) ->
    objects s !! x = Some (OPrecalculatedLead pl) \/ holds_value pl.
Proof.
  induction items as [|lead rest IH]; intros nr s acc Hnl x pl;
    [now left|].
  cbn [precalculate_loop]. unfold mbind at 1.
  destruct (selected leads nr) eqn:Hsel.
  - rewrite (precalculate_lead_selected _ _ _ _ _ _ _ _ _ _ _ _ _ acc
               Hsel Hnl).
    destruct (lead_values _ _ _ _ _ _ _ _ _ _ _)
      as [evs1 [vals|err]]; [|now left].
    destruct (PrecalculatedLead_init vals.1 vals.2) as [pl0|err] eqn:Hinit;
      [|now left].
    intros Hx. eapply IH in Hx; [|cbn; apply lookup_insert_eq].
    destruct Hx as [Hx|Hx]; [|now right]. cbn in Hx.
    apply lookup_insert_Some in Hx as [[_ Hx]|[_ Hx]]; [discriminate|].
    apply lookup_insert_Some in Hx as [[_ Hx]|[_ Hx]]; [|now left].
    injection Hx as <-. right.
    now apply PrecalculatedLead_init_inv in Hinit as [-> Hvalue].
  - rewrite (precalculate_lead_unselected _ _ _ _ _ _ _ _ _ _ _ _ _ acc
               Hsel Hnl).
    intros Hx. eapply IH in Hx; [|cbn; apply lookup_insert_eq].
    destruct Hx as [Hx|Hx]; [|now right]. cbn in Hx.
    apply lookup_insert_Some in Hx as [[_ Hx]|[_ Hx]]; [discriminate|].
    now left.
Qed.

(** [precalculate] creates no [PrecalculatedLead] without a value. *)
Lemma precalculate_valued (s : state) (self ll : loc)
    (attrs : gmap string loc) (items : list loc) (energy : Energy)
    (args : Args) (leads : option (list Z)) (what : string)
    (params : Params) (x : loc) (pl : PrecalculatedLead) :
  objects s !! self = Some (OSystem attrs) ->
  attrs !! "leads" = Some ll ->
  objects s !! ll = Some (OList items) ->
  objects (precalc self energy args leads what params s).1 !! x
  = Some (OPrecalculatedLead pl) ->
  objects s !! x = Some (OPrecalculatedLead pl) \/ holds_value pl.
Proof.
  intros Hself Hleads Hll.
  unfold precalculate, deprecate_args.
  destruct (negb (what_in what ["modes"; "selfenergy"; "all"]));
    [now left|].
  unfold mbind at 1. unfold copy. rewrite Hself. unfold alloc at 1.
  set (res := fresh (dom (objects s))).
  assert (Hres : objects s !! res = None) by apply fresh_not_allocated.
  set (s1 := mkState (<[res := OSystem attrs]> (objects s)) (trace s)).
  assert (Hs1 : forall l o, objects s !! l = Some o ->
                            objects s1 !! l = Some o).
  { intros l o Hl. cbn. rewrite lookup_insert_ne; [exact Hl|].
    intros <-. rewrite Hres in Hl. discriminate. }
  unfold mbind at 1. unfold getattr. rewrite (Hs1 _ _ Hself), Hleads.
  unfold mbind at 1. unfold list_items. rewrite (Hs1 _ _ Hll).
  unfold mbind at 1. unfold alloc at 1.
  set (nl := fresh (dom (objects s1))).
  set (s2 := mkState (<[nl := OList []]> (objects s1)) (trace s1)).
  set (leads' := match leads with
                 | None => map Z.of_nat (seq 0 (length items))
                 | Some leads0 => leads0
                 end).
  pose proof (precalculate_loop_valued nl leads' what energy args params
                items 0 s2 [] (lookup_insert_eq _ _ _) x pl) as Hloop.
  unfold mbind at 1.
  destruct (loop nl leads' what energy args params 0 items s2)
    as [s3 [[]|err]]; cbn [fst] in Hloop.
  - intros Hx.
    assert (Hx3 : objects s3 !! x = Some (OPrecalculatedLead pl)).
    { revert Hx. unfold mbind, setattr, mret.
      destruct (objects s3 !! res) as [[a| | |]|]; try (cbn; tauto).
      cbn. intros Hx.
      apply lookup_insert_Some in Hx as [[_ Hx]|[_ Hx]];
        [discriminate|exact Hx]. }
    destruct (Hloop Hx3) as [Hx2|Hx2]; [|now right]. cbn in Hx2.
    apply lookup_insert_Some in Hx2 as [[_ Hx2]|[_ Hx2]]; [discriminate|].
    apply lookup_insert_Some in Hx2 as [[_ Hx2]|[_ Hx2]]; [discriminate|].
    now left.
  - cbn [fst]. intros Hx.
    destruct (Hloop Hx) as [Hx2|Hx2]; [|now right]. cbn in Hx2.
    apply lookup_insert_Some in Hx2 as [[_ Hx2]|[_ Hx2]]; [discriminate|].
    apply lookup_insert_Some in Hx2 as [[_ Hx2]|[_ Hx2]]; [discriminate|].
    now left.
Qed.

(** X17.  After [precalculate] with [what = 'modes'], each selected lead
    is replaced by a lead that answers [modes], for every energy,
    arguments and parameters, with the value that the [modes] of the
    original lead gave at the energy of the precalculation, and whose
    [selfenergy] raises a [ValueError]. *)
Theorem precalculate_modes_frozen (s : state) (self ll : loc)
    (attrs : gmap string loc) (items : list loc) (energy : Energy)
    (args : Args) (leads : option (list Z)) (params : Params) :
  objects s !! self = Some (OSystem attrs) ->
  attrs !! "leads" = Some ll ->
  objects s !! ll = Some (OList items) ->
  Forall (fun lead => is_Some (objects s !! lead)) items ->
  exists s' r,
    precalc self energy args leads "modes" params s = (s', r)
    /\ forall res,
         r = Ok res ->
         exists nl new,
           objects s' !! res = Some (OSystem (<["leads" := nl]> attrs))
           /\ objects s' !! nl = Some (OList new)
           /\ forall k lead,
                items !! k = Some lead ->
                chosen leads (length items) k = true ->
                exists x d,
                  new !! k = Some x
                  /\ lead_modes foreign_modes (objects s) lead energy args
                                params = Ok (Some d)
                  /\ forall (energy' : Energy) (args' : Args)
                            (params' : Params),
                       lead_modes foreign_modes (objects s') x energy' args'
                                  params' = Ok (Some d)
                       /\ exists msg,
                            lead_selfenergy foreign_selfenergy (objects s') x
                                            energy' args' params'
                            = Raise (ValueError msg).
Proof.
  intros Hself Hleads Hll Hclosed.
  assert (Hwhat : "modes" ∈ ["modes"; "selfenergy"; "all"])
    by (repeat constructor).
  destruct (precalculate_spec foreign_modes foreign_selfenergy
              modes_selfenergy data_truthy s self ll attrs items energy
              args leads "modes" params Hself Hleads Hll Hclosed Hwhat)
    as (s' & r & evs & Hrun & _ & _ & _ & Hdone & _).
  exists s', r. split; [exact Hrun|]. intros res Hres.
  destruct (Hdone res Hres) as (_ & nl & new & H1 & _ & H3 & _ & H5).
  exists nl, new. split; [exact H1|]. split; [exact H3|].
  intros k lead Hk Hchosen. specialize (H5 k lead Hk).
  rewrite Hchosen in H5.
  destruct H5 as (x & pl & Hx & Hfresh & Hpl & Hvalues & _).
  assert (Hvalue : holds_value pl).
  { destruct (precalculate_valued s self ll attrs items energy args leads
                "modes" params x pl Hself Hleads Hll) as [Hold|Hv];
      [now rewrite Hrun| |exact Hv].
    rewrite Hfresh in Hold. discriminate. }
  rewrite lead_values_modes in Hvalues. cbn [snd] in Hvalues.
  destruct (lead_modes foreign_modes (objects s) lead energy args params)
    as [m|err]; [|discriminate Hvalues].
  cbn in Hvalues. injection Hvalues as Hm Hs.
  destruct Hvalue as [Hv|Hv]; [|now rewrite <- Hs in Hv].
  destruct m as [d|]; [|now rewrite <- Hm in Hv].
  exists x, d. split; [exact Hx|]. split; [reflexivity|].
  intros energy' args' params'.
  unfold lead_modes, lead_selfenergy. rewrite Hpl.
  unfold PrecalculatedLead_modes, PrecalculatedLead_selfenergy,
    deprecate_args.
  rewrite <- Hm, <- Hs. split; [reflexivity|]. eexists. reflexivity.
Qed.
End PrecalculateMore.

(** No number below 2 is in the list [-1, 7]. *)
Lemma outside_not_chosen (k : nat) :
  k < 2 -> chosen (Some [(-1)%Z; 7%Z]) 2 k = false.
Proof.
  intros Hk. unfold chosen, selected. apply bool_decide_eq_false.
  rewrite !elem_of_cons. intros [H|[H|H]]; [lia|lia|inversion H].
Qed.

Lemma modes_is_valid : "modes" ∈ ["modes"; "selfenergy"; "all"].
Proof. repeat constructor. Qed.

(** With [leads = [1]] and [what = 'all'] every call is made for lead 1
    of the two leads. *)
Lemma precalculate_calls_selected_only_witness :
  scattering_region !! 1%positive
  = Some (OSystem {[ "graph" := 2%positive; "leads" := 3%positive ]})
  /\ ({[ "graph" := 2%positive; "leads" := 3%positive ]} : gmap string loc)
     !! "leads" = Some 3%positive
  /\ scattering_region !! 3%positive = Some (OList [4%positive; 5%positive])
  /\ Forall (fun lead => is_Some (scattering_region !! lead))
            [4%positive; 5%positive]
  /\ "all" ∈ ["modes"; "selfenergy"; "all"]
  /\ exists s' r evs,
       region_precalculate (Some [1%Z]) "all" = (s', r)
       /\ trace s' = evs
       /\ forall ev,
            ev ∈ evs ->
            event_nr ev < 2
            /\ chosen (Some [1%Z]) 2 (event_nr ev) = true.
Proof.
  split; [reflexivity|]. split; [reflexivity|]. split; [reflexivity|].
  split; [exact region_leads_exist|]. split; [exact all_is_valid|].
  exact (precalculate_calls_selected_only
           region_modes region_selfenergy region_modes_selfenergy
           (fun _ => true) (mkState scattering_region [])
           1%positive 3%positive
           {[ "graph" := 2%positive; "leads" := 3%positive ]}
           [4%positive; 5%positive] 0%Z tt (Some [1%Z]) "all" tt
           eq_refl eq_refl eq_refl region_leads_exist all_is_valid).
Defined.

(** With [leads = [-1, 7]] the copy keeps both leads and nothing is
    called. *)
Lemma precalculate_without_selection_witness :
  scattering_region !! 1%positive
  = Some (OSystem {[ "graph" := 2%positive; "leads" := 3%positive ]})
  /\ ({[ "graph" := 2%positive; "leads" := 3%positive ]} : gmap string loc)
     !! "leads" = Some 3%positive
  /\ scattering_region !! 3%positive = Some (OList [4%positive; 5%positive])
  /\ Forall (fun lead => is_Some (scattering_region !! lead))
            [4%positive; 5%positive]
  /\ "all" ∈ ["modes"; "selfenergy"; "all"]
  /\ (forall k, k < 2 -> chosen (Some [(-1)%Z; 7%Z]) 2 k = false)
  /\ exists s' res nl,
       region_precalculate (Some [(-1)%Z; 7%Z]) "all" = (s', Ok res)
       /\ trace s' = []
       /\ scattering_region !! res = None
       /\ objects s' !! res
          = Some (OSystem (<["leads" := nl]>
                             {[ "graph" := 2%positive;
                                "leads" := 3%positive ]}))
       /\ scattering_region !! nl = None
       /\ objects s' !! nl = Some (OList [4%positive; 5%positive]).
Proof.
  split; [reflexivity|]. split; [reflexivity|]. split; [reflexivity|].
  split; [exact region_leads_exist|]. split; [exact all_is_valid|].
  split; [exact outside_not_chosen|].
  exact (precalculate_without_selection
           region_modes region_selfenergy region_modes_selfenergy
           (fun _ => true) (mkState scattering_region [])
           1%positive 3%positive
           {[ "graph" := 2%positive; "leads" := 3%positive ]}
           [4%positive; 5%positive] 0%Z tt (Some [(-1)%Z; 7%Z]) "all" tt
           eq_refl eq_refl eq_refl region_leads_exist all_is_valid
           outside_not_chosen).
Defined.

(** With [leads = None] and [what = 'modes'] both leads of the copy are
    new [PrecalculatedLead]s. *)
Lemma precalculate_all_leads_witness :
  scattering_region !! 1%positive
  = Some (OSystem {[ "graph" := 2%positive; "leads" := 3%positive ]})
  /\ ({[ "graph" := 2%positive; "leads" := 3%positive ]} : gmap string loc)
     !! "leads" = Some 3%positive
  /\ scattering_region !! 3%positive = Some (OList [4%positive; 5%positive])
  /\ Forall (fun lead => is_Some (scattering_region !! lead))
            [4%positive; 5%positive]
  /\ "modes" ∈ ["modes"; "selfenergy"; "all"]
  /\ exists s' r,
       region_precalculate None "modes" = (s', r)
       /\ forall res,
            r = Ok res ->
            exists nl new,
              objects s' !! res
              = Some (OSystem (<["leads" := nl]>
                                 {[ "graph" := 2%positive;
                                    "leads" := 3%positive ]}))
              /\ objects s' !! nl = Some (OList new)
              /\ length new = 2
              /\ forall k x,
                   new !! k = Some x ->
                   scattering_region !! x = None
                   /\ exists pl,
                        objects s' !! x = Some (OPrecalculatedLead pl).
Proof.
  split; [reflexivity|]. split; [reflexivity|]. split; [reflexivity|].
  split; [exact region_leads_exist|]. split; [exact modes_is_valid|].
  exact (precalculate_all_leads
           region_modes region_selfenergy region_modes_selfenergy
           (fun _ => true) (mkState scattering_region [])
           1%positive 3%positive
           {[ "graph" := 2%positive; "leads" := 3%positive ]}
           [4%positive; 5%positive] 0%Z tt "modes" tt
           eq_refl eq_refl eq_refl region_leads_exist modes_is_valid).
Defined.

(** With [leads = [1]] and [what = 'modes'], lead 1 of the copy answers
    [modes] with the value 15 that the original lead at location 5 gave,
    and its [selfenergy] raises. *)
Lemma precalculate_modes_frozen_witness :
  scattering_region !! 1%positive
  = Some (OSystem {[ "graph" := 2%positive; "leads" := 3%positive ]})
  /\ ({[ "graph" := 2%positive; "leads" := 3%positive ]} : gmap string loc)
     !! "leads" = Some 3%positive
  /\ scattering_region !! 3%positive = Some (OList [4%positive; 5%positive])
  /\ Forall (fun lead => is_Some (scattering_region !! lead))
            [4%positive; 5%positive]
  /\ exists s' r,
       region_precalculate (Some [1%Z]) "modes" = (s', r)
       /\ forall res,
            r = Ok res ->
            exists nl new x,
              objects s' !! nl = Some (OList new)
              /\ new !! 1 = Some x
              /\ lead_modes region_modes (objects s') x 7%Z tt tt
                 = Ok (Some 15)
              /\ exists msg,
                   lead_selfenergy region_selfenergy (objects s') x 7%Z tt tt
                   = Raise (ValueError msg).
Proof.
  split; [reflexivity|]. split; [reflexivity|]. split; [reflexivity|].
  split; [exact region_leads_exist|].
  destruct (precalculate_modes_frozen
              region_modes region_selfenergy region_modes_selfenergy
              (fun _ => true) (mkState scattering_region [])
              1%positive 3%positive
              {[ "graph" := 2%positive; "leads" := 3%positive ]}
              [4%positive; 5%positive] 0%Z tt (Some [1%Z]) tt
              eq_refl eq_refl eq_refl region_leads_exist)
    as (s' & r & Hrun & Hdone).
  exists s', r. split; [exact Hrun|]. intros res Hres.
  destruct (Hdone res Hres) as (nl & new & _ & Hnl & Hleads).
  destruct (Hleads 1 5%positive eq_refl eq_refl)
    as (x & d & Hx & Hd & Hfrozen).
  injection Hd as <-.
  exists nl, new, x. split; [exact Hnl|]. split; [exact Hx|].
  exact (Hfrozen 7%Z tt tt).
Defined.

(** ** Instances for site families and site arrays *)

(** Two families with the representation "chain" and different names
    and numbers of orbitals are equal, in both directions, and have the
    same hash. *)
Lemma SiteFamily_eq_ne_hash_witness :
  SiteFamily_eq chain_family (AFamily (mkSiteFamily "chain" "other" None))
  = true
  /\ SiteFamily_eq (mkSiteFamily "chain" "other" None) (AFamily chain_family)
     = true
  /\ SiteFamily_hash (fun s => Z.of_nat (String.length s)) chain_family
     = SiteFamily_hash (fun s => Z.of_nat (String.length s))
                       (mkSiteFamily "chain" "other" None).
Proof.
  split; [reflexivity|].
  exact (proj2 (proj2 (proj2
           (SiteFamily_eq_ne_hash
              (fun s => Z.of_nat (String.length s)) chain_family
              (AFamily chain_family))))
           (mkSiteFamily "chain" "other" None) eq_refl).
Defined.

(** Families "a", "b" and "c": from [a < b] and [b < c] follows
    [a < c]. *)
Lemma SiteFamily_lt_total_order_witness :
  SiteFamily_lt (mkSiteFamily "a" "" None)
                (AFamily (mkSiteFamily "b" "" None)) = Ok true
  /\ SiteFamily_lt (mkSiteFamily "b" "" None)
                   (AFamily (mkSiteFamily "c" "" None)) = Ok true
  /\ SiteFamily_lt (mkSiteFamily "a" "" None)
                   (AFamily (mkSiteFamily "c" "" None)) = Ok true.
Proof.
  split; [reflexivity|]. split; [reflexivity|].
  exact (proj1 (proj2
           (SiteFamily_lt_total_order
              (mkSiteFamily "a" "" None) (mkSiteFamily "b" "" None)
              (mkSiteFamily "c" "" None)))
           eq_refl eq_refl).
Defined.

